(** * atlas: scripts/rename-scope.js

    A shallow embedding of the scope-renaming script and the properties
    its specification states about it.

    - [JsString]: JavaScript strings as sequences of UTF-16 code units.
    - [Regex]: the backtracking matcher of the three regular expressions
      the script uses, with [test], global [match] and global [replace].
    - [Script]: the pure helpers of the script ([isValidScope],
      [findReferences], [replaceReferences], [countFileReferences]).
    - [Run]: the file system, console and prompt effects, [scanFiles],
      [applyRenaming] and [main].
    - [Props]: the notions the properties are stated with.
    - [Samples]: a small repository on which the script is run.

    The lemmas follow the definitions; the properties of the
    specification come last, each with the number of its claim. *)

From Stdlib Require Import Ascii String.
From stdpp Require Import base numbers list option gmap.

Local Open Scope nat_scope.

(** ** JavaScript strings *)

Module JsString.

(** A code unit is a number below 65536; a string is a list of them. *)
Definition char := N.
Definition jsstring := list char.

(** String literals of the script are ASCII: one code unit per byte. *)
Definition js (s : string) : jsstring :=
  List.map N_of_ascii (list_ascii_of_string s).

Definition ch (a : ascii) : char := N_of_ascii a.

Definition in_range (lo hi : ascii) (c : char) : bool :=
  (ch lo <=? c)%N && (c <=? ch hi)%N.

Definition is_char (a : ascii) (c : char) : bool := (c =? ch a)%N.

Definition jseq (a b : jsstring) : bool := bool_decide (a = b).

(** [s.startsWith(p)], used to state where a literal occurs. *)
Fixpoint starts_with (p s : jsstring) : bool :=
  match p, s with
  | [], _ => true
  | a :: p', b :: s' => (a =? b)%N && starts_with p' s'
  | _ :: _, [] => false
  end.

(** [p] occurs in [s] as a substring. *)
Definition occurs (p s : jsstring) : Prop :=
  exists a b, s = a ++ p ++ b.

(** WhiteSpace and LineTerminator code units, as [String.prototype.trim]
    strips them. *)
Definition is_space (c : char) : bool :=
  bool_decide (c ∈ [9; 10; 11; 12; 13; 32; 160; 5760; 8232; 8233; 8239;
                    8287; 12288; 65279]%N)
  || ((8192 <=? c)%N && (c <=? 8202)%N).

Fixpoint trim_start (s : jsstring) : jsstring :=
  match s with
  | c :: s' => if is_space c then trim_start s' else s
  | [] => []
  end.

Definition trim (s : jsstring) : jsstring :=
  rev (trim_start (rev (trim_start s))).

(** [String.prototype.toLowerCase] on one code unit.  The ASCII capitals
    are mapped exactly; of the other code points only U+212A (KELVIN
    SIGN) and U+0130 lower-case to text with an ASCII letter, and both
    are listed.  The remaining Unicode case table maps non-ASCII to
    non-ASCII code points and is left as the identity. *)
Definition lower_unit (c : char) : jsstring :=
  if in_range "A" "Z" c then [(c + 32)%N]
  else if (c =? 8490)%N then [ch "k"]
  else if (c =? 304)%N then [ch "i"; 775%N]
  else [c].

Definition toLowerCase (s : jsstring) : jsstring :=
  flat_map lower_unit s.

(** [s.split(sep)] for a one-unit separator: the pieces between the
    separators, always at least one piece. *)
Fixpoint split_on (sep : char) (s : jsstring) : list jsstring :=
  match s with
  | [] => [[]]
  | c :: s' =>
      if (c =? sep)%N then [] :: split_on sep s'
      else match split_on sep s' with
           | l :: ls => (c :: l) :: ls
           | [] => [[c]]
           end
  end.

(** [s.substring(a, b)] for [a <= b]. *)
Definition substring (a b : nat) (s : jsstring) : jsstring :=
  take (b - a) (drop a s).

End JsString.
Import JsString.

(** ** Regular expressions *)

Module Regex.

(** The fragment of the pattern syntax that the script uses. *)
Inductive regex :=
| Eps                          (* the empty pattern *)
| Class (p : char -> bool)     (* a character or a character class *)
| Seq (a b : regex)            (* juxtaposition *)
| Opt (a : regex)              (* a? *)
| Star (a : regex)             (* a* *)
| Bol                          (* ^ *)
| Eol.                         (* $ *)

(** [a+] is one mandatory iteration followed by [a*]. *)
Definition Plus (a : regex) : regex := Seq a (Star a).

Fixpoint Lit (s : jsstring) : regex :=
  match s with
  | [] => Eps
  | c :: s' => Seq (Class (N.eqb c)) (Lit s')
  end.

(** A matcher state is the index reached and the input that is left. *)
Definition mstate := (nat * jsstring)%type.
Definition cont := mstate -> option mstate.

(** Greedy repetition: try one more iteration that makes progress, and
    fall back to the continuation.  The fuel is the length of the input
    that is left, which bounds the number of iterations. *)
Fixpoint star_loop (m : mstate -> cont -> option mstate) (k : cont)
    (fuel : nat) (x : mstate) : option mstate :=
  match fuel with
  | 0 => k x
  | S fuel' =>
      match m x (fun y => if fst x <? fst y
                          then star_loop m k fuel' y else None) with
      | Some z => Some z
      | None => k x
      end
  end.

(** The backtracking matcher, in continuation-passing style. *)
Fixpoint rmatch (r : regex) (x : mstate) (k : cont) : option mstate :=
  match r with
  | Eps => k x
  | Class p =>
      match snd x with
      | c :: s' => if p c then k (S (fst x), s') else None
      | [] => None
      end
  | Seq a b => rmatch a x (fun y => rmatch b y k)
  | Opt a =>
      match rmatch a x (fun y => if fst x <? fst y then k y else None) with
      | Some z => Some z
      | None => k x
      end
  | Star a => star_loop (rmatch a) k (length (snd x)) x
  | Bol => if fst x =? 0 then k x else None
  | Eol => match snd x with [] => k x | _ :: _ => None end
  end.

(** A match attempt at index [pos], where [s] is the input from there
    on: the index one past the match. *)
Definition match_at (r : regex) (pos : nat) (s : jsstring) : option nat :=
  fst <$> rmatch r (pos, s) Some.

(** [r.test(s)] for a pattern without the g flag: some start index
    matches. *)
Fixpoint test_from (r : regex) (pos : nat) (s : jsstring) : bool :=
  match match_at r pos s with
  | Some _ => true
  | None => match s with
            | [] => false
            | _ :: s' => test_from r (S pos) s'
            end
  end.

Definition test (r : regex) (s : jsstring) : bool := test_from r 0 s.

(** All matches of a pattern with the g flag, as (start, end) pairs:
    the leftmost match from the last end on, again and again.  [skip]
    counts the units of the last match still to pass over; after an
    empty match the search moves on by one unit. *)
Fixpoint scan (r : regex) (skip pos : nat) (s : jsstring)
    : list (nat * nat) :=
  match skip with
  | S skip' =>
      match s with
      | [] => []
      | _ :: s' => scan r skip' (S pos) s'
      end
  | 0 =>
      match match_at r pos s with
      | Some e =>
          (pos, e) :: match s with
                      | [] => []
                      | _ :: s' => scan r (e - pos - 1) (S pos) s'
                      end
      | None =>
          match s with
          | [] => []
          | _ :: s' => scan r 0 (S pos) s'
          end
      end
  end.

Definition exec_all (r : regex) (s : jsstring) : list (nat * nat) :=
  scan r 0 0 s.

(** [s.match(r)] with the g flag, with [null] read as no match (the
    script writes [s.match(r) || []]). *)
Definition match_all (r : regex) (s : jsstring) : list jsstring :=
  (fun m => substring m.1 m.2 s) <$> exec_all r s.

(** GetSubstitution for a pattern without capture groups: [$$] is a
    dollar sign, [$&] the match, [$`] the text before it, [$'] the text
    after it, and any other dollar sign stands for itself. *)
Fixpoint get_substitution (matched before after tmpl : jsstring)
    : jsstring :=
  match tmpl with
  | [] => []
  | c :: t =>
      if is_char "$" c then
        match t with
        | d :: t' =>
            if is_char "$" d then
              ch "$" :: get_substitution matched before after t'
            else if is_char "&" d then
              matched ++ get_substitution matched before after t'
            else if is_char "`" d then
              before ++ get_substitution matched before after t'
            else if is_char "'" d then
              after ++ get_substitution matched before after t'
            else c :: get_substitution matched before after t
        | [] => [c]
        end
      else c :: get_substitution matched before after t
  end.

(** The result of [s.replace(r, tmpl)] from the list of matches: the
    text between the matches and one substitution per match. *)
Fixpoint replace_build (s tmpl : jsstring) (next : nat)
    (ms : list (nat * nat)) : jsstring :=
  match ms with
  | [] => drop next s
  | (p, e) :: ms' =>
      substring next p s
        ++ get_substitution (substring p e s) (take p s) (drop e s) tmpl
        ++ replace_build s tmpl e ms'
  end.

Definition replace_all (r : regex) (tmpl s : jsstring) : jsstring :=
  replace_build s tmpl 0 (exec_all r s).

End Regex.
Import Regex.

(** ** The pure helpers of the script *)

Module Script.

(** [[a-z0-9]] and [[a-z0-9-]] of the scope pattern, [[\w-]] of the
    reference pattern. *)
Definition lower_alnum (c : char) : bool :=
  in_range "a" "z" c || in_range "0" "9" c.

Definition lower_alnum_hyphen (c : char) : bool :=
  in_range "a" "z" c || in_range "0" "9" c || is_char "-" c.

Definition word_char (c : char) : bool :=
  in_range "A" "Z" c || in_range "a" "z" c || in_range "0" "9" c
  || is_char "_" c.

Definition word_hyphen (c : char) : bool := word_char c || is_char "-" c.

(** /^[a-z0-9]([a-z0-9-]*[a-z0-9])?$/ *)
Definition scope_re : regex :=
  Seq Bol
    (Seq (Class lower_alnum)
       (Seq (Opt (Seq (Star (Class lower_alnum_hyphen))
                     (Class lower_alnum)))
          Eol)).

Definition isValidScope (scope : jsstring) : bool := test scope_re scope.

Definition oldPrefix : jsstring := js "@ordinarysh/".

(** /@ordinarysh\/[\w-]+/g *)
Definition reference_re : regex :=
  Seq (Lit oldPrefix) (Plus (Class word_hyphen)).

(** /@ordinarysh\//g *)
Definition prefix_re : regex := Lit oldPrefix.

(** [[...new Set(l)]]: the first occurrence of every element, in
    order. *)
Fixpoint dedup_seen (seen l : list jsstring) : list jsstring :=
  match l with
  | [] => []
  | x :: l' =>
      if bool_decide (x ∈ seen) then dedup_seen seen l'
      else x :: dedup_seen (x :: seen) l'
  end.

Definition dedup (l : list jsstring) : list jsstring := dedup_seen [] l.

(** A content that is [null] or empty is falsy. *)
Definition falsy (content : jsstring) : bool :=
  match content with [] => true | _ :: _ => false end.

Definition findReferences (content : jsstring) : list jsstring :=
  if falsy content then []
  else dedup (match_all reference_re content).

Definition replaceReferences (content newScope : jsstring) : jsstring :=
  if falsy content then content
  else replace_all prefix_re (js "@" ++ newScope ++ js "/") content.

Definition countFileReferences (content : jsstring) : nat :=
  if falsy content then 0
  else length (match_all reference_re content).

End Script.
Import Script.

(** ** The run: file system, console, prompts *)

Module Run.

(** *** The file system *)

Inductive errno := ENOENT | EACCES | EISDIR.

(** A path names a file with its permissions and text, or a directory. *)
Inductive node :=
| File (readable writable : bool) (data : jsstring)
| Dir.

Record error := { code : errno; path : jsstring }.

(** [fs.readFileSync(p, 'utf-8')] *)
Definition readFileSync (fs : gmap jsstring node) (p : jsstring)
    : error + jsstring :=
  match fs !! p with
  | None => inl {| code := ENOENT; path := p |}
  | Some Dir => inl {| code := EISDIR; path := p |}
  | Some (File false _ _) => inl {| code := EACCES; path := p |}
  | Some (File true _ data) => inr data
  end.

(** [fs.writeFileSync(p, content, 'utf-8')]: the whole text of the file
    is replaced; a path that is free gets a new file. *)
Definition writeFileSync (fs : gmap jsstring node) (p content : jsstring)
    : error + gmap jsstring node :=
  match fs !! p with
  | None => inr (<[p := File true true content]> fs)
  | Some Dir => inl {| code := EISDIR; path := p |}
  | Some (File _ false _) => inl {| code := EACCES; path := p |}
  | Some (File r true _) => inr (<[p := File r true content]> fs)
  end.

(** *** The console *)

Inductive question := ScopeQuestion | ContinueQuestion.

(** One constructor per message of the script. *)
Inductive line :=
| Banner                                   (* [*] Atlas Package Scope ... *)
| NoReferences                             (* [OK] No @ordinarysh ...      *)
| FoundTotal (total : nat)                 (* Found n reference(s) in:     *)
| FileCount (file : jsstring) (count : nat)
| Blank
| InvalidScopeError                        (* console.error, before exit 1 *)
| AlreadyNamed
| PreviewHeader (scope : jsstring)
| FileName (file : jsstring)
| Rule
| DiffOld (old : jsstring)
| DiffNew (new : option jsstring)          (* [None]: undefined            *)
| ConfirmBanner (scope : jsstring) (total : nat)
| Ask (q : question)
| EmptyScopeHint
| InvalidScopeHint
| YesNoHint
| Cancelled
| Renamed (updated : nat)
| AllChanged (scope : jsstring)
| NextSteps
| ErrorReport (e : error).                 (* console.error in the catch   *)

(** *** Process state *)

Record world := {
  fs : gmap jsstring node;                (* the files on disk            *)
  stdin : list jsstring;                  (* the lines still to be typed  *)
  out : list line;                        (* what was printed, in order   *)
  writes : list (jsstring * jsstring);    (* the writes done, in order    *)
}.

(** What is fixed for a run: where the script lives and what each glob
    pattern of [globPatterns] matches. *)
Record env := {
  rootDir : jsstring;
  globSync : list (list jsstring);
}.

Inductive outcome (A : Type) :=
| Ret (a : A)                  (* normal completion *)
| Exit (status : nat)          (* process.exit(status) *)
| Throw (e : error)            (* an exception on its way up *)
| Await.                       (* waiting for a line that never comes *)
Arguments Ret {A} a.
Arguments Exit {A} status.
Arguments Throw {A} e.
Arguments Await {A}.

Definition M (A : Type) : Type := world -> world * outcome A.

Definition ret {A} (a : A) : M A := fun w => (w, Ret a).

Definition bind {A B} (m : M A) (k : A -> M B) : M B :=
  fun w =>
    match m w with
    | (w', Ret a) => k a w'
    | (w', Exit n) => (w', Exit n)
    | (w', Throw e) => (w', Throw e)
    | (w', Await) => (w', Await)
    end.

Notation "x <- m ;; k" := (bind m (fun x => k))
  (at level 100, m at next level, right associativity).
Notation "m ;;; k" := (bind m (fun _ => k))
  (at level 100, right associativity).

Definition exit {A} (status : nat) : M A := fun w => (w, Exit status).
Definition await {A} : M A := fun w => (w, Await).

Definition log (l : line) : M unit :=
  fun w => ({| fs := fs w; stdin := stdin w; out := out w ++ [l];
               writes := writes w |}, Ret tt).

Definition when (b : bool) (m : M unit) : M unit :=
  if b then m else ret tt.

(** [for (const x of xs) body(x)] *)
Fixpoint for_each {A} (xs : list A) (body : A -> M unit) : M unit :=
  match xs with
  | [] => ret tt
  | x :: xs' => body x ;;; for_each xs' body
  end.

(** [path.join(rootDir, file)] for a relative, normalised [file]. *)
Definition path_join (root file : jsstring) : jsstring :=
  root ++ js "/" ++ file.

Definition getFilesToScan (e : env) : list jsstring :=
  dedup (concat (globSync e)).

(** *** Command line *)

Record config := { dryRun : bool; newScope : option jsstring }.

Definition includes (x : jsstring) (l : list jsstring) : bool :=
  bool_decide (x ∈ l).

Fixpoint indexOf (x : jsstring) (l : list jsstring) : option nat :=
  match l with
  | [] => None
  | y :: l' => if jseq y x then Some 0 else S <$> indexOf x l'
  end.

Definition parseArgs (args : list jsstring) : config :=
  {| dryRun := includes (js "--dry-run") args || includes (js "--check") args;
     newScope :=
       match indexOf (js "--scope") args with
       | Some scopeIndex =>
           match args !! (scopeIndex + 1) with
           | Some a => if falsy a then None else Some a
           | None => None
           end
       | None => None
       end |}.

(** *** File access of the script *)

(** [null] is [None]. *)
Definition readFileContent (filePath : jsstring) : M (option jsstring) :=
  fun w =>
    match readFileSync (fs w) filePath with
    | inr data => (w, Ret (Some data))
    | inl err =>
        match code err with
        | ENOENT => (w, Ret None)
        | _ => (w, Throw err)
        end
    end.

Definition writeFileContent (cfg : config) (filePath content : jsstring)
    : M unit :=
  if dryRun cfg then ret tt
  else fun w =>
    match writeFileSync (fs w) filePath content with
    | inr fs' =>
        ({| fs := fs'; stdin := stdin w; out := out w;
            writes := writes w ++ [(filePath, content)] |}, Ret tt)
    | inl err => (w, Throw err)
    end.

(** *** Scanning *)

Record finding := {
  file : jsstring;
  fullPath : jsstring;
  content : jsstring;
  references : list jsstring;
}.

Fixpoint scanLoop (e : env) (filesToScan : list jsstring)
    (findings : list finding) : M (list finding) :=
  match filesToScan with
  | [] => ret findings
  | file :: rest =>
      let fullPath := path_join (rootDir e) file in
      content <- readFileContent fullPath ;;
      match content with
      | None => scanLoop e rest findings
      | Some content =>
          if falsy content then scanLoop e rest findings
          else
            let refs := findReferences content in
            if 0 <? length refs then
              scanLoop e rest
                (findings ++ [{| file := file; fullPath := fullPath;
                                 content := content; references := refs |}])
            else scanLoop e rest findings
      end
  end.

Definition scanFiles (e : env) : M (list finding) :=
  scanLoop e (getFilesToScan e) [].

Definition countReferences (findings : list finding) : nat :=
  foldl (fun sum f => sum + length (references f)) 0 findings.

(** *** Applying *)

Fixpoint applyLoop (cfg : config) (findings : list finding)
    (newScope : jsstring) (updatedCount : nat) : M nat :=
  match findings with
  | [] => ret updatedCount
  | finding :: rest =>
      let newContent := replaceReferences (content finding) newScope in
      writeFileContent cfg (fullPath finding) newContent ;;;
      applyLoop cfg rest newScope (updatedCount + 1)
  end.

Definition applyRenaming (cfg : config) (findings : list finding)
    (newScope : jsstring) : M nat :=
  applyLoop cfg findings newScope 0.

(** *** Prompts *)

(** One pass of [rl.question]: the question is printed and the next
    line of the input, if there is one, is the answer. *)
Definition ask (q : question) : M jsstring :=
  fun w =>
    let w' := {| fs := fs w; stdin := tail (stdin w);
                 out := out w ++ [Ask q]; writes := writes w |} in
    match stdin w with
    | input :: _ => (w', Ret input)
    | [] => (w', Await)
    end.

(** The [while (true)] loops ask once per line of input: [lines] is the
    input that is left when the loop is entered. *)
Fixpoint promptForScopeLoop (lines : list jsstring) : M jsstring :=
  match lines with
  | [] => ask ScopeQuestion ;;; await
  | _ :: lines' =>
      input <- ask ScopeQuestion ;;
      let answer := trim input in
      if falsy answer then log EmptyScopeHint ;;; promptForScopeLoop lines'
      else if negb (isValidScope answer) then
        log InvalidScopeHint ;;; promptForScopeLoop lines'
      else ret answer
  end.

Definition promptForScope : M jsstring :=
  fun w => promptForScopeLoop (stdin w) w.

Definition is_no (answer : jsstring) : bool :=
  jseq answer [] || jseq answer (js "n") || jseq answer (js "no").

Definition is_yes (answer : jsstring) : bool :=
  jseq answer (js "y") || jseq answer (js "yes").

Fixpoint promptConfirmationLoop (message : question) (lines : list jsstring)
    : M bool :=
  match lines with
  | [] => ask message ;;; await
  | _ :: lines' =>
      input <- ask message ;;
      let answer := toLowerCase (trim input) in
      if is_no answer then ret false
      else if is_yes answer then ret true
      else log YesNoHint ;;; promptConfirmationLoop message lines'
  end.

Definition promptConfirmation (message : question) : M bool :=
  fun w => promptConfirmationLoop message (stdin w) w.

(** *** Diff preview *)

(** The inner loop of the preview: [oldLines[i] !== newLines[i]] for
    every index of [oldLines]. *)
Definition diffLines (oldLines newLines : list jsstring) : list line :=
  flat_map
    (fun i =>
       match oldLines !! i with
       | Some old =>
           if bool_decide (newLines !! i = Some old) then []
           else [DiffOld old; DiffNew (newLines !! i)]
       | None => []
       end)
    (seq 0 (length oldLines)).

Definition newline : char := 10%N.

Fixpoint previewLoop (findings : list finding) (newScope : jsstring)
    : M unit :=
  match findings with
  | [] => ret tt
  | finding :: rest =>
      let newContent := replaceReferences (content finding) newScope in
      let oldLines := split_on newline (content finding) in
      let newLines := split_on newline newContent in
      log (FileName (file finding)) ;;;
      log Rule ;;;
      for_each (diffLines oldLines newLines) log ;;;
      when (0 <? length rest) (log Blank) ;;;
      previewLoop rest newScope
  end.

(** *** Main *)

Definition main (e : env) (cfg : config) : M unit :=
  log Banner ;;;
  findings <- scanFiles e ;;
  when (length findings =? 0) (log NoReferences ;;; exit 0) ;;;
  let totalCount := countReferences findings in
  when (dryRun cfg)
    (log (FoundTotal totalCount) ;;;
     for_each findings
       (fun finding =>
          log (FileCount (file finding)
                 (countFileReferences (content finding)))) ;;;
     log Blank ;;;
     exit 0) ;;;
  newScope <- match newScope cfg with
              | Some s => if falsy s then promptForScope else ret s
              | None => promptForScope
              end ;;
  when (negb (isValidScope newScope)) (log InvalidScopeError ;;; exit 1) ;;;
  when (jseq newScope (js "ordinarysh")) (log AlreadyNamed ;;; exit 0) ;;;
  log (PreviewHeader newScope) ;;;
  previewLoop findings newScope ;;;
  log Blank ;;;
  log (ConfirmBanner newScope totalCount) ;;;
  confirmed <- promptConfirmation ContinueQuestion ;;
  when (negb confirmed) (log Cancelled ;;; exit 0) ;;;
  updated <- applyRenaming cfg findings newScope ;;
  log (Renamed updated) ;;;
  log (AllChanged newScope) ;;;
  log NextSteps.

(** How the process ends. *)
Inductive status := Exited (n : nat) | Waiting.

(** [main().catch(...)], from the command line to the end of the
    process. *)
Definition run (e : env) (args : list jsstring) (w : world)
    : world * status :=
  match main e (parseArgs args) w with
  | (w', Ret _) => (w', Exited 0)
  | (w', Exit n) => (w', Exited n)
  | (w', Throw err) =>
      ({| fs := fs w'; stdin := stdin w'; out := out w' ++ [ErrorReport err];
          writes := writes w' |}, Exited 1)
  | (w', Await) => (w', Waiting)
  end.

End Run.
Import Run.

(** ** Notions used to state the properties *)

Module Props.

(** A match moved [d] units to the right. *)
Definition shift (d : nat) (m : nat * nat) : nat * nat := (m.1 + d, m.2 + d).

(** A replacement text in which no dollar sign starts a substitution. *)
Definition dollar_free (t : jsstring) : Prop :=
  Forall (fun c => is_char "$" c = false) t.

(** The language of [^[a-z0-9]([a-z0-9-]*[a-z0-9])?$], written out: one
    unit of [[a-z0-9]], or such a unit, then units of [[a-z0-9-]], then
    a unit of [[a-z0-9]]. *)
Definition scope_shape (s : jsstring) : Prop :=
  exists c, lower_alnum c = true /\
    (s = [c] \/
     exists w d, s = c :: w ++ [d] /\
       Forall (fun x => lower_alnum_hyphen x = true) w /\
       lower_alnum d = true).

(** The same as a test: the last unit is in [[a-z0-9]] and those before
    it are in [[a-z0-9-]]. *)
Fixpoint hyphenated_tail (t : jsstring) : bool :=
  match t with
  | [] => false
  | c :: t' =>
      match t' with
      | [] => lower_alnum c
      | _ :: _ => lower_alnum_hyphen c && hyphenated_tail t'
      end
  end.

Definition scope_ok (s : jsstring) : bool :=
  match s with
  | [] => false
  | c :: t =>
      lower_alnum c && match t with [] => true | _ :: _ => hyphenated_tail t end
  end.

(** [occurs] as a test: the literal starts at some index. *)
Fixpoint occursb (p s : jsstring) : bool :=
  starts_with p s
  || match s with
     | [] => false
     | _ :: s' => occursb p s'
     end.

(** The replacement text of [replaceReferences]. *)
Definition newPrefix (newScope : jsstring) : jsstring :=
  js "@" ++ newScope ++ js "/".

(** How often a unit is in a string. *)
Fixpoint count_unit (u : char) (s : jsstring) : nat :=
  match s with
  | [] => 0
  | c :: s' => (if (c =? u)%N then 1 else 0) + count_unit u s'
  end.

(** The preview of two texts with as many lines: for every pair of
    lines at the same index, nothing when they are equal and the pair
    when they differ. *)
Definition changed_pairs (oldLines newLines : list jsstring) : list line :=
  flat_map
    (fun '(old, new) =>
       if bool_decide (new = old) then []
       else [DiffOld old; DiffNew (Some new)])
    (zip oldLines newLines).

(** The world after some more lines were printed. *)
Definition emit (ls : list line) (w : world) : world :=
  {| fs := fs w; stdin := stdin w; out := out w ++ ls; writes := writes w |}.

(** The world after the prompt took a line of input. *)
Definition asked (q : question) (w : world) : world :=
  {| fs := fs w; stdin := tail (stdin w); out := out w ++ [Ask q];
     writes := writes w |}.

(** The writes that [applyRenaming] is to do, in order. *)
Definition planned (findings : list finding) (newScope : jsstring)
    : list (jsstring * jsstring) :=
  (fun f => (fullPath f, replaceReferences (content f) newScope))
    <$> findings.

(** The file system after a list of writes, or the first error. *)
Fixpoint write_all (files : gmap jsstring node)
    (l : list (jsstring * jsstring)) : error + gmap jsstring node :=
  match l with
  | [] => inr files
  | (p, c) :: l' =>
      match writeFileSync files p c with
      | inr files' => write_all files' l'
      | inl err => inl err
      end
  end.

(** What the diff preview prints for the findings. *)
Fixpoint preview_lines (findings : list finding) (newScope : jsstring)
    : list line :=
  match findings with
  | [] => []
  | f :: rest =>
      [FileName (file f); Rule]
      ++ diffLines (split_on newline (content f))
           (split_on newline (replaceReferences (content f) newScope))
      ++ (if 0 <? length rest then [Blank] else [])
      ++ preview_lines rest newScope
  end.

(** The world in which the confirmation is asked, where [w] is the
    world in which the scope was settled. *)
Definition at_confirm (findings : list finding) (newScope : jsstring)
    (w : world) : world :=
  emit ([PreviewHeader newScope] ++ preview_lines findings newScope
        ++ [Blank; ConfirmBanner newScope (countReferences findings)]) w.

(** The scope of the run: from the command line, or asked for. *)
Definition resolveScope (cfg : config) : M jsstring :=
  match newScope cfg with
  | Some s => if falsy s then promptForScope else ret s
  | None => promptForScope
  end.

(** The outcome of a scan as a value. *)
Definition scanned {A} (r : error + A) : outcome A :=
  match r with
  | inr a => Ret a
  | inl err => Throw err
  end.

End Props.
Import Props.

(** ** A small repository to run the script on *)

Module Samples.

Definition page : jsstring := js "apps/web/app/page.tsx".
Definition manifest : jsstring := js "packages/ui/package.json".
Definition config_file : jsstring := js "apps/web/next.config.ts".

Definition page_text : jsstring :=
  js "import { Button } from '@ordinarysh/ui';" ++ [newline]
  ++ js "export { Card } from '@ordinarysh/ui';" ++ [newline].

Definition manifest_text : jsstring :=
  js "{ 'name': '@ordinarysh/ui'," ++ [newline]
  ++ js "  'version': '0.0.0' }".

Definition repo : env :=
  {| rootDir := js "/repo";
     globSync := [[manifest]; [config_file; page]; [page]] |}.

Definition at_root (f : jsstring) : jsstring := path_join (rootDir repo) f.

(** Both files can be read and written; [config_file] was found by the
    glob and is gone by the time it is read. *)
Definition disk : gmap jsstring node :=
  <[at_root page := File true true page_text]>
    (<[at_root manifest := File true true manifest_text]> ∅).

(** The page is read-only. *)
Definition disk_read_only : gmap jsstring node :=
  <[at_root page := File true false page_text]> disk.

(** The manifest cannot be read. *)
Definition disk_unreadable : gmap jsstring node :=
  <[at_root manifest := File false true manifest_text]> disk.

Definition start (files : gmap jsstring node) (input : list jsstring)
    : world :=
  {| fs := files; stdin := input; out := []; writes := [] |}.

Definition manifest_finding : finding :=
  {| file := manifest; fullPath := at_root manifest;
     content := manifest_text; references := [js "@ordinarysh/ui"] |}.

Definition page_finding : finding :=
  {| file := page; fullPath := at_root page;
     content := page_text; references := [js "@ordinarysh/ui"] |}.

End Samples.
Import Samples.

(** ** Notions for the rest of the script *)

Module Cover.

(** The length of the longest run of units of a class at the start of a
    string. *)
Fixpoint run_length (q : char -> bool) (s : jsstring) : nat :=
  match s with
  | c :: s' => if q c then S (run_length q s') else 0
  | [] => 0
  end.

(** What one pass of the loop of [scanFiles] makes of a candidate: an
    error that ends the scan, nothing, or a finding. *)
Definition scan_file (e : env) (files : gmap jsstring node) (f : jsstring)
    : error + option finding :=
  match readFileSync files (path_join (rootDir e) f) with
  | inl err =>
      match code err with
      | ENOENT => inr None
      | _ => inl err
      end
  | inr data =>
      if falsy data then inr None
      else if 0 <? length (findReferences data) then
        inr (Some {| file := f; fullPath := path_join (rootDir e) f;
                     content := data; references := findReferences data |})
      else inr None
  end.

(** The findings of a list of candidates, or the first error. *)
Fixpoint found_in (e : env) (files : gmap jsstring node)
    (candidates : list jsstring) : error + list finding :=
  match candidates with
  | [] => inr []
  | f :: rest =>
      match scan_file e files f with
      | inl err => inl err
      | inr o =>
          match found_in e files rest with
          | inl err => inl err
          | inr l => inr (option_list o ++ l)
          end
      end
  end.

(** The answer that the confirmation prompt looks at. *)
Definition normalize (input : jsstring) : jsstring := toLowerCase (trim input).

(** The confirmation prompt decides on this line. *)
Definition recognised (input : jsstring) : bool :=
  is_no (normalize input) || is_yes (normalize input).

(** The hint of the scope prompt for a line it does not accept. *)
Definition scope_hint (input : jsstring) : line :=
  if falsy (trim input) then EmptyScopeHint else InvalidScopeHint.

(** The per-file counts that the preview prints, added up. *)
Definition file_counts (findings : list finding) : nat :=
  sum_list ((fun f => countFileReferences (content f)) <$> findings).

(** What the preview mode prints after the banner. *)
Definition preview_report (findings : list finding) : list line :=
  [FoundTotal (countReferences findings)]
  ++ ((fun f => FileCount (file f) (countFileReferences (content f)))
        <$> findings)
  ++ [Blank].

(** The ways in which [main] ends, from the world [w] it starts in: the
    world it ends in and how it ends. *)
Inductive ending (e : env) (cfg : config) (w : world)
    : world -> outcome unit -> Prop :=
| end_scan_error err :
    scanFiles e w = (w, Throw err) ->
    ending e cfg w (emit [Banner] w) (Throw err)
| end_no_findings :
    scanFiles e w = (w, Ret []) ->
    ending e cfg w (emit [Banner; NoReferences] w) (Exit 0)
| end_preview findings :
    scanFiles e w = (w, Ret findings) -> findings <> [] ->
    dryRun cfg = true ->
    ending e cfg w (emit (Banner :: preview_report findings) w) (Exit 0)
| end_scope_wait findings w2 :
    scanFiles e w = (w, Ret findings) -> findings <> [] ->
    dryRun cfg = false ->
    resolveScope cfg (emit [Banner] w) = (w2, Await) ->
    ending e cfg w w2 Await
| end_invalid findings w2 s :
    scanFiles e w = (w, Ret findings) -> findings <> [] ->
    dryRun cfg = false ->
    resolveScope cfg (emit [Banner] w) = (w2, Ret s) ->
    isValidScope s = false ->
    ending e cfg w (emit [InvalidScopeError] w2) (Exit 1)
| end_same findings w2 :
    scanFiles e w = (w, Ret findings) -> findings <> [] ->
    dryRun cfg = false ->
    resolveScope cfg (emit [Banner] w) = (w2, Ret (js "ordinarysh")) ->
    ending e cfg w (emit [AlreadyNamed] w2) (Exit 0)
| end_confirm_wait findings w2 s w3 :
    scanFiles e w = (w, Ret findings) -> findings <> [] ->
    dryRun cfg = false ->
    resolveScope cfg (emit [Banner] w) = (w2, Ret s) ->
    isValidScope s = true -> s <> js "ordinarysh" ->
    promptConfirmation ContinueQuestion (at_confirm findings s w2)
      = (w3, Await) ->
    ending e cfg w w3 Await
| end_cancelled findings w2 s w3 :
    scanFiles e w = (w, Ret findings) -> findings <> [] ->
    dryRun cfg = false ->
    resolveScope cfg (emit [Banner] w) = (w2, Ret s) ->
    isValidScope s = true -> s <> js "ordinarysh" ->
    promptConfirmation ContinueQuestion (at_confirm findings s w2)
      = (w3, Ret false) ->
    ending e cfg w (emit [Cancelled] w3) (Exit 0)
| end_applied findings w2 s w3 w4 n :
    scanFiles e w = (w, Ret findings) -> findings <> [] ->
    dryRun cfg = false ->
    resolveScope cfg (emit [Banner] w) = (w2, Ret s) ->
    isValidScope s = true -> s <> js "ordinarysh" ->
    promptConfirmation ContinueQuestion (at_confirm findings s w2)
      = (w3, Ret true) ->
    applyRenaming cfg findings s w3 = (w4, Ret n) ->
    ending e cfg w (emit [Renamed n; AllChanged s; NextSteps] w4) (Ret tt)
| end_apply_error findings w2 s w3 w4 err :
    scanFiles e w = (w, Ret findings) -> findings <> [] ->
    dryRun cfg = false ->
    resolveScope cfg (emit [Banner] w) = (w2, Ret s) ->
    isValidScope s = true -> s <> js "ordinarysh" ->
    promptConfirmation ContinueQuestion (at_confirm findings s w2)
      = (w3, Ret true) ->
    applyRenaming cfg findings s w3 = (w4, Throw err) ->
    ending e cfg w w4 (Throw err).

End Cover.
Import Cover.

(** * Facts about strings and the matcher *)

Section StringFacts.

Lemma starts_with_app (p b : jsstring) : starts_with p (p ++ b) = true.
Proof.
  induction p as [|a p IH]; simpl; [done|].
  by rewrite N.eqb_refl.
Qed.

Lemma starts_with_split (p s : jsstring) :
  starts_with p s = true -> s = p ++ drop (length p) s.
Proof.
  revert s. induction p as [|a p IH]; intros [|b s]; simpl; try done.
  intros [Hab Hp]%andb_prop. apply N.eqb_eq in Hab. subst b.
  f_equal. by apply IH.
Qed.

Lemma starts_with_length (p s : jsstring) :
  starts_with p s = true -> length p <= length s.
Proof.
  intros H. rewrite (starts_with_split p s H) at 1.
  rewrite length_app. lia.
Qed.

Lemma starts_with_occurs (p s : jsstring) (i : nat) :
  starts_with p (drop i s) = true -> occurs p s.
Proof.
  intros H. exists (take i s), (drop (length p) (drop i s)).
  rewrite <- (starts_with_split _ _ H). by rewrite take_drop.
Qed.

Lemma occurs_starts_with (p s : jsstring) :
  occurs p s -> exists i, starts_with p (drop i s) = true.
Proof.
  intros (a & b & ->). exists (length a).
  rewrite drop_app_length. apply starts_with_app.
Qed.

Lemma occurs_cons (p : jsstring) (c : char) (s : jsstring) :
  occurs p s -> occurs p (c :: s).
Proof. intros (a & b & ->). by exists (c :: a), b. Qed.

Lemma occurs_drop (p s : jsstring) (n : nat) :
  occurs p (drop n s) -> occurs p s.
Proof.
  intros (a & b & H). exists (take n s ++ a), b.
  rewrite <- (take_drop n s) at 1. rewrite H. by rewrite <- app_assoc.
Qed.

End StringFacts.

Section MatcherFacts.

(** A literal matches exactly where the input starts with it. *)
Lemma rmatch_Lit (p : jsstring) (pos : nat) (s : jsstring) (k : cont) :
  rmatch (Lit p) (pos, s) k =
    if starts_with p s then k (pos + length p, drop (length p) s) else None.
Proof.
  revert pos s. induction p as [|a p IH]; intros pos s; simpl.
  - by rewrite Nat.add_0_r.
  - destruct s as [|b s]; [done|]. simpl.
    destruct (N.eqb_spec a b) as [->|Hne]; simpl; [|done].
    rewrite IH. by replace (S pos + length p) with (pos + S (length p)) by lia.
Qed.

Lemma match_at_Lit (p : jsstring) (pos : nat) (s : jsstring) :
  match_at (Lit p) pos s =
    if starts_with p s then Some (pos + length p) else None.
Proof. unfold match_at. rewrite rmatch_Lit. by destruct (starts_with p s). Qed.

(** Greedy repetition of a class, one step at a time. *)
Lemma star_loop_class_nil (q : char -> bool) (k : cont) (fuel pos : nat) :
  star_loop (rmatch (Class q)) k fuel (pos, []) = k (pos, []).
Proof. by destruct fuel. Qed.

Lemma star_loop_class_cons (q : char -> bool) (k : cont) (fuel pos : nat)
    (c : char) (s : jsstring) :
  star_loop (rmatch (Class q)) k (S fuel) (pos, c :: s) =
    if q c then
      match star_loop (rmatch (Class q)) k fuel (S pos, s) with
      | Some z => Some z
      | None => k (pos, c :: s)
      end
    else k (pos, c :: s).
Proof.
  simpl. destruct (q c); [|done].
  by replace (pos <? S pos) with true by (symmetry; apply Nat.ltb_lt; lia).
Qed.

(** The fuel of the repetition is enough: more of it changes nothing. *)
Lemma star_loop_class_fuel (q : char -> bool) (k : cont) (fuel pos : nat)
    (s : jsstring) :
  length s <= fuel ->
  star_loop (rmatch (Class q)) k fuel (pos, s)
  = star_loop (rmatch (Class q)) k (length s) (pos, s).
Proof.
  revert fuel pos. induction s as [|c s IH]; intros fuel pos Hf.
  - by rewrite !star_loop_class_nil.
  - destruct fuel as [|fuel]; cbn [length] in *; [lia|].
    rewrite !star_loop_class_cons. by rewrite (IH fuel) by lia.
Qed.

(** With a continuation that accepts anything, the repetition takes the
    longest run of class members. *)
Lemma star_loop_class_greedy (q : char -> bool) (pos : nat) (s : jsstring) :
  exists n, star_loop (rmatch (Class q)) Some (length s) (pos, s)
            = Some (pos + n, drop n s).
Proof.
  revert pos. induction s as [|c s IH]; intros pos.
  - exists 0. by rewrite star_loop_class_nil, Nat.add_0_r.
  - cbn [length]. rewrite star_loop_class_cons. destruct (q c).
    + destruct (IH (S pos)) as [n ->]. exists (S n). simpl. f_equal. f_equal. lia.
    + exists 0. by rewrite Nat.add_0_r.
Qed.

(** The scan passes over the rest of a match without looking. *)
Lemma scan_skip (r : regex) (k pos : nat) (s : jsstring) :
  k <= length s -> scan r k pos s = scan r 0 (pos + k) (drop k s).
Proof.
  revert pos s. induction k as [|k IH]; intros pos s Hk.
  - by rewrite Nat.add_0_r.
  - destruct s as [|c s]; simpl in Hk; [lia|].
    cbn [scan drop]. rewrite IH by lia. f_equal. lia.
Qed.

End MatcherFacts.

(** The matches of a pattern that does not look at its position are the
    same wherever the input is placed. *)
Section Placement.

Variable r : regex.
Hypothesis match_at_shift : forall pos d s,
  match_at r (pos + d) s = (fun e => e + d) <$> match_at r pos s.

Lemma scan_shift (k pos d : nat) (s : jsstring) :
  scan r k (pos + d) s = shift d <$> scan r k pos s.
Proof.
  revert k pos. induction s as [|c s IH]; intros k pos.
  - destruct k as [|k]; [|done]. cbn [scan].
    rewrite match_at_shift. by destruct (match_at r pos []).
  - destruct k as [|k]; cbn [scan].
    + rewrite match_at_shift.
      destruct (match_at r pos (c :: s)) as [e|]; cbn [fmap option_fmap option_map].
      * rewrite fmap_cons. f_equal.
        replace (e + d - (pos + d) - 1) with (e - pos - 1) by lia.
        apply (IH _ (S pos)).
      * apply (IH 0 (S pos)).
    + apply (IH k (S pos)).
Qed.

End Placement.

Section Substitution.

Lemma get_substitution_plain (m b a t : jsstring) :
  dollar_free t -> get_substitution m b a t = t.
Proof.
  induction 1 as [|c t Hc _ IH]; [done|].
  cbn [get_substitution]. rewrite Hc. by rewrite IH.
Qed.

Lemma replace_build_shift (pre s t : jsstring) (next : nat)
    (ms : list (nat * nat)) :
  dollar_free t ->
  replace_build (pre ++ s) t (length pre + next) (shift (length pre) <$> ms)
  = replace_build s t next ms.
Proof.
  intros Ht. revert next. induction ms as [|[p e] ms IH]; intros next.
  - cbn. apply drop_app_add.
  - rewrite fmap_cons. cbn [shift fst snd replace_build].
    rewrite !get_substitution_plain by done.
    rewrite (Nat.add_comm e), IH. f_equal.
    unfold substring. rewrite drop_app_add. f_equal. lia.
Qed.

Lemma replace_build_pending (pre s t : jsstring) (next : nat)
    (ms : list (nat * nat)) :
  dollar_free t -> next <= length pre ->
  replace_build (pre ++ s) t next (shift (length pre) <$> ms)
  = drop next pre ++ replace_build s t 0 ms.
Proof.
  intros Ht Hn. destruct ms as [|[p e] ms].
  - cbn. by rewrite drop_app_le.
  - rewrite fmap_cons. cbn [shift fst snd replace_build].
    rewrite !get_substitution_plain by done.
    rewrite (Nat.add_comm e), replace_build_shift by done.
    rewrite (app_assoc (drop next pre)). f_equal.
    unfold substring. rewrite drop_app_le, drop_0, Nat.sub_0_r by done.
    replace (p + length pre - next) with (length (drop next pre) + p)
      by (rewrite length_drop; lia).
    by rewrite take_app_add.
Qed.

End Substitution.

(** Where a pattern matches at no index, the scan finds nothing. *)
Lemma scan_none (r : regex) (pos : nat) (s : jsstring) :
  (forall i pos', match_at r pos' (drop i s) = None) ->
  scan r 0 pos s = [].
Proof.
  revert pos. induction s as [|c s IH]; intros pos Hs; cbn [scan];
    pose proof (Hs 0 pos) as H0; cbn [drop] in H0; rewrite H0; [done|].
  apply IH. intros i pos'. apply (Hs (S i) pos').
Qed.

(** Replacing a literal by a text without dollar signs, one step at a
    time. *)
Section ReplaceLiteral.

Variables p t : jsstring.
Hypothesis p_nonempty : 0 < length p.
Hypothesis t_plain : dollar_free t.

Lemma match_at_Lit_shift (pos d : nat) (s : jsstring) :
  match_at (Lit p) (pos + d) s = (fun e => e + d) <$> match_at (Lit p) pos s.
Proof.
  clear p_nonempty t_plain.
  rewrite !match_at_Lit. destruct (starts_with p s); [|done].
  cbn. f_equal. lia.
Qed.

Lemma replace_all_nil : replace_all (Lit p) t [] = [].
Proof.
  clear t_plain. unfold replace_all, exec_all. cbn [scan]. rewrite match_at_Lit.
  destruct p; [simpl in p_nonempty; lia | done].
Qed.

Lemma replace_all_miss (c : char) (s : jsstring) :
  starts_with p (c :: s) = false ->
  replace_all (Lit p) t (c :: s) = c :: replace_all (Lit p) t s.
Proof.
  intros Hm. unfold replace_all, exec_all. cbn [scan].
  rewrite match_at_Lit, Hm.
  rewrite (scan_shift (Lit p) match_at_Lit_shift 0 0 1).
  by rewrite (replace_build_pending [c] s t 0) by (done || simpl; lia).
Qed.

Lemma replace_all_hit (s : jsstring) :
  starts_with p s = true ->
  replace_all (Lit p) t s = t ++ replace_all (Lit p) t (drop (length p) s).
Proof.
  intros Hm. pose proof (starts_with_length _ _ Hm) as Hlen.
  unfold replace_all, exec_all.
  destruct s as [|c s]; [simpl in Hlen; lia|].
  cbn [scan]. rewrite match_at_Lit, Hm. simpl in Hlen.
  rewrite scan_skip by lia.
  replace (1 + (0 + length p - 0 - 1)) with (0 + length p) by lia.
  replace (drop (0 + length p - 0 - 1) s) with (drop (length p) (c :: s))
    by (destruct (length p) as [|n] eqn:E; [lia|]; cbn; f_equal; lia).
  rewrite (scan_shift (Lit p) match_at_Lit_shift).
  cbn [replace_build]. rewrite get_substitution_plain by done.
  unfold substring at 1. rewrite Nat.sub_0_r, take_0. cbn [app]. f_equal.
  set (ms := scan (Lit p) 0 0 (drop (length p) (c :: s))).
  rewrite <- (take_drop (length p) (c :: s)) at 1.
  assert (Hl : length (take (length p) (c :: s)) = length p)
    by (apply length_take_le; simpl; lia).
  pose proof (replace_build_shift (take (length p) (c :: s))
                (drop (length p) (c :: s)) t 0 ms t_plain) as Hb.
  rewrite Hl, Nat.add_0_r in Hb. by rewrite Nat.add_0_l.
Qed.

End ReplaceLiteral.

(** * The scope-name predicate *)

Section ScopeName.

Lemma lower_alnum_range (c : char) :
  lower_alnum c = true ->
  (97 <= c <= 122)%N \/ (48 <= c <= 57)%N.
Proof.
  unfold lower_alnum, in_range.
  change (ch "a") with 97%N. change (ch "z") with 122%N.
  change (ch "0") with 48%N. change (ch "9") with 57%N.
  rewrite orb_true_iff, !andb_true_iff, !N.leb_le. tauto.
Qed.

Lemma lower_alnum_hyphen_range (c : char) :
  lower_alnum_hyphen c = true ->
  (97 <= c <= 122)%N \/ (48 <= c <= 57)%N \/ c = 45%N.
Proof.
  unfold lower_alnum_hyphen, in_range, is_char.
  change (ch "a") with 97%N. change (ch "z") with 122%N.
  change (ch "0") with 48%N. change (ch "9") with 57%N.
  change (ch "-") with 45%N.
  rewrite !orb_true_iff, !andb_true_iff, !N.leb_le, N.eqb_eq. tauto.
Qed.

Lemma lower_alnum_hyphen_of_alnum (c : char) :
  lower_alnum c = true -> lower_alnum_hyphen c = true.
Proof.
  unfold lower_alnum, lower_alnum_hyphen. intros ->. done.
Qed.

(** [[a-z0-9-]*[a-z0-9]$] after the first unit: the greedy repetition
    gives back units until the last one is left for [[a-z0-9]]. *)
Lemma scope_tail_match (t : jsstring) (pos : nat) :
  1 <= pos ->
  star_loop (rmatch (Class lower_alnum_hyphen))
    (fun y => rmatch (Class lower_alnum) y
       (fun y => if 1 <? fst y then rmatch Eol y Some else None))
    (length t) (pos, t)
  = if hyphenated_tail t then Some (pos + length t, []) else None.
Proof.
  revert pos. induction t as [|c t IH]; intros pos Hpos; [done|].
  cbn [length]. rewrite star_loop_class_cons, IH by lia.
  assert (Hlt : (1 <? S pos) = true) by (apply Nat.ltb_lt; lia).
  assert (HK : rmatch (Class lower_alnum) (pos, c :: t)
                 (fun y => if 1 <? fst y then rmatch Eol y Some else None)
               = if lower_alnum c && bool_decide (t = [])
                 then Some (S pos, []) else None).
  { cbn [rmatch snd fst]. destruct (lower_alnum c); [|done].
    rewrite Hlt. by destruct t. }
  rewrite HK. replace (S pos + length t) with (pos + S (length t)) by lia.
  destruct t as [|c' t].
  - cbn [hyphenated_tail length andb bool_decide]. rewrite andb_true_r.
    replace (pos + 1) with (S pos) by lia.
    destruct (lower_alnum c) eqn:Ha; [|by destruct (lower_alnum_hyphen c)].
    by rewrite (lower_alnum_hyphen_of_alnum c Ha).
  - rewrite bool_decide_eq_false_2, andb_false_r by done.
    change (hyphenated_tail (c :: c' :: t))
      with (lower_alnum_hyphen c && hyphenated_tail (c' :: t)).
    destruct (lower_alnum_hyphen c); [|done].
    by destruct (hyphenated_tail (c' :: t)).
Qed.

(** [^] fails at every index but the first. *)
Lemma scope_re_anchored (pos : nat) (s : jsstring) :
  test_from scope_re (S pos) s = false.
Proof. revert pos. induction s as [|c s IH]; intros pos; cbn; [done|apply IH]. Qed.

Lemma isValidScope_scope_ok (s : jsstring) : isValidScope s = scope_ok s.
Proof.
  unfold isValidScope, test. destruct s as [|c t]; [done|].
  cbn [test_from]. rewrite scope_re_anchored.
  assert (E : match_at scope_re 0 (c :: t) = fst <$>
    if lower_alnum c then
      match star_loop (rmatch (Class lower_alnum_hyphen))
              (fun y => rmatch (Class lower_alnum) y
                 (fun y => if 1 <? fst y then rmatch Eol y Some else None))
              (length t) (1, t) with
      | Some z => Some z
      | None => rmatch Eol (1, t) Some
      end
    else None) by reflexivity.
  rewrite E, scope_tail_match by lia.
  cbn [scope_ok]. destruct (lower_alnum c); [|done]. cbn [andb].
  destruct t as [|c' t]; [done|].
  by destruct (hyphenated_tail (c' :: t)).
Qed.

Lemma hyphenated_tail_shape (t : jsstring) :
  hyphenated_tail t = true <->
  exists w d, t = w ++ [d] /\
    Forall (fun x => lower_alnum_hyphen x = true) w /\ lower_alnum d = true.
Proof.
  induction t as [|c t IH].
  - split; [done|]. intros (w & d & H & _). by destruct w.
  - destruct t as [|c' t].
    + cbn. split.
      * intros Ha. by exists [], c.
      * intros (w & d & H & _ & Hd). destruct w as [|x [|y w]]; by simplify_eq/=.
    + cbn [hyphenated_tail] in *. rewrite andb_true_iff, IH. split.
      * intros (Hc & w & d & -> & Hw & Hd).
        exists (c :: w), d. split; [done|]. split; [by constructor|done].
      * intros (w & d & H & Hw & Hd).
        destruct w as [|x w]; [by destruct t|]. simplify_eq/=.
        inversion Hw; subst. split; [done|]. by exists w, d.
Qed.

Lemma scope_ok_shape (s : jsstring) : scope_ok s = true <-> scope_shape s.
Proof.
  unfold scope_shape. destruct s as [|c t]; cbn [scope_ok].
  - split; [done|]. intros (c & _ & [H | (w & d & H & _)]); done.
  - rewrite andb_true_iff. split.
    + intros [Hc Ht]. exists c. split; [done|].
      destruct t as [|c' t]; [by left|right].
      apply hyphenated_tail_shape in Ht as (w & d & -> & Hw & Hd).
      by exists w, d.
    + intros (x & Hx & [H | (w & d & H & Hw & Hd)]); simplify_eq.
      * done.
      * split; [done|].
        assert (Ht : hyphenated_tail (w ++ [d]) = true)
          by (apply hyphenated_tail_shape; eauto).
        by destruct (w ++ [d]).
Qed.

(** The units of a valid scope name are all in [[a-z0-9-]]. *)
Lemma hyphenated_tail_units (t : jsstring) :
  hyphenated_tail t = true ->
  Forall (fun x => lower_alnum_hyphen x = true) t.
Proof.
  intros (w & d & -> & Hw & Hd)%hyphenated_tail_shape.
  apply Forall_app. split; [done|].
  constructor; [by apply lower_alnum_hyphen_of_alnum|done].
Qed.

Lemma valid_scope_units (s : jsstring) :
  isValidScope s = true -> Forall (fun x => lower_alnum_hyphen x = true) s.
Proof.
  rewrite isValidScope_scope_ok. destruct s as [|c t]; [done|].
  cbn [scope_ok]. intros [Hc Ht]%andb_prop.
  constructor; [by apply lower_alnum_hyphen_of_alnum|].
  destruct t; [done|]. by apply hyphenated_tail_units.
Qed.

End ScopeName.

(** * Occurrences of the old prefix *)

Section Occurrences.

Lemma occursb_occurs (p s : jsstring) : occursb p s = true <-> occurs p s.
Proof.
  split.
  - induction s as [|c s IH]; cbn [occursb]; intros [H|H]%orb_prop.
    + by apply (starts_with_occurs p [] 0).
    + done.
    + by apply (starts_with_occurs p (c :: s) 0).
    + by apply occurs_cons, IH.
  - intros (a & b & ->). induction a as [|c a IH].
    + pose proof (starts_with_app p b) as H. cbn [app].
      destruct (p ++ b); cbn [occursb]; by rewrite H.
    + cbn [app occursb]. rewrite IH. apply orb_true_r.
Qed.

Lemma not_occurs_check (p s : jsstring) : occursb p s = false -> ~ occurs p s.
Proof. intros H Ho%occursb_occurs. congruence. Qed.

Lemma not_occurs_nowhere (p s : jsstring) (i : nat) :
  ~ occurs p s -> starts_with p (drop i s) = false.
Proof.
  intros Hn. destruct (starts_with p (drop i s)) eqn:E; [|done].
  destruct Hn. by apply (starts_with_occurs p s i).
Qed.

(** A text that starts with [c] cannot start inside a run of units
    that are all different from [c]. *)
Lemma occursb_skip (c : char) (p a b : jsstring) :
  Forall (fun x => x <> c) a ->
  occursb (c :: p) (a ++ b) = occursb (c :: p) b.
Proof.
  induction 1 as [|x a Hx _ IH]; [done|].
  cbn [app occursb starts_with].
  destruct (N.eqb_spec c x) as [->|_]; [done|]. by rewrite IH.
Qed.

(** Two texts that end at the first separator of the same input are
    the same text. *)
Lemma starts_with_separator (sep : char) (u v b : jsstring) :
  Forall (fun x => x <> sep) u -> Forall (fun x => x <> sep) v ->
  starts_with (u ++ [sep]) (v ++ sep :: b) = true -> u = v.
Proof.
  intros Hu. revert v. induction Hu as [|x u Hx _ IH]; intros v Hv.
  - destruct Hv as [|y v Hy _]; [done|]. cbn.
    destruct (N.eqb_spec sep y); [congruence|done].
  - destruct Hv as [|y v Hy Hv]; cbn.
    + destruct (N.eqb_spec x sep); [congruence|done].
    + destruct (N.eqb_spec x y) as [->|_]; [|done]. cbn.
      intros H. f_equal. by apply IH.
Qed.

End Occurrences.

(** * Replacing, one step at a time *)

Section ReplaceSteps.

Lemma oldPrefix_length : length oldPrefix = 12.
Proof. reflexivity. Qed.

Lemma replaceReferences_replace_all (content newScope : jsstring) :
  replaceReferences content newScope
  = replace_all prefix_re (newPrefix newScope) content.
Proof.
  unfold replaceReferences. destruct content as [|x c]; [|done].
  symmetry. apply replace_all_nil. rewrite oldPrefix_length. lia.
Qed.

Lemma replaceReferences_miss (x : char) (c s : jsstring) :
  dollar_free (newPrefix s) ->
  starts_with oldPrefix (x :: c) = false ->
  replaceReferences (x :: c) s = x :: replaceReferences c s.
Proof.
  intros Hs Hm. rewrite !replaceReferences_replace_all.
  apply (replace_all_miss oldPrefix); [rewrite oldPrefix_length; lia|done..].
Qed.

Lemma replaceReferences_hit (c s : jsstring) :
  dollar_free (newPrefix s) ->
  starts_with oldPrefix c = true ->
  replaceReferences c s = newPrefix s ++ replaceReferences (drop 12 c) s.
Proof.
  intros Hs Hm. rewrite !replaceReferences_replace_all.
  apply (replace_all_hit oldPrefix); [rewrite oldPrefix_length; lia|done..].
Qed.

(** Induction along the steps of the replacement. *)
Lemma prefix_ind (P : jsstring -> Prop) :
  P [] ->
  (forall x c, starts_with oldPrefix (x :: c) = false -> P c -> P (x :: c)) ->
  (forall c, starts_with oldPrefix c = true -> P (drop 12 c) -> P c) ->
  forall c, P c.
Proof.
  intros Hnil Hmiss Hhit c.
  induction c as [c IH] using (induction_ltof1 _ (@length char)).
  unfold ltof in IH. destruct c as [|x c]; [done|].
  destruct (starts_with oldPrefix (x :: c)) eqn:E.
  - apply Hhit; [done|]. apply IH. rewrite length_drop. simpl. lia.
  - apply Hmiss; [done|]. apply IH. simpl. lia.
Qed.

(** The units of a valid scope name start no substitution and are no
    at sign, slash or line feed. *)
Lemma valid_scope_plain (s : jsstring) :
  isValidScope s = true -> dollar_free (newPrefix s).
Proof.
  intros Hs%valid_scope_units. unfold newPrefix, dollar_free.
  rewrite !Forall_app. split_and!; [by repeat constructor| |by repeat constructor].
  eapply Forall_impl; [exact Hs|]. intros c Hc%lower_alnum_hyphen_range.
  unfold is_char. change (ch "$") with 36%N. apply N.eqb_neq. lia.
Qed.

Lemma valid_scope_avoids (s : jsstring) (c : char) :
  isValidScope s = true -> c ∈ [64; 47; 10]%N -> Forall (fun x => x <> c) s.
Proof.
  intros Hs%valid_scope_units Hc.
  eapply Forall_impl; [exact Hs|]. intros x Hx%lower_alnum_hyphen_range.
  set_unfold in Hc. lia.
Qed.

End ReplaceSteps.

(** * What the replacement leaves behind *)

Section Replaced.

Lemma oldPrefix_units : oldPrefix = 64%N :: js "ordinarysh" ++ [47%N].
Proof. reflexivity. Qed.

Lemma newPrefix_units (s : jsstring) : newPrefix s = 64%N :: s ++ [47%N].
Proof. reflexivity. Qed.

Lemma ordinarysh_units : Forall (fun x => x <> 64%N) (js "ordinarysh" ++ [47%N]).
Proof. repeat constructor; by vm_compute. Qed.

Lemma ordinarysh_no_slash : Forall (fun x => x <> 47%N) (js "ordinarysh").
Proof. repeat constructor; by vm_compute. Qed.

(** Text without an at sign at the start of the result was at the
    start of the content already: every replacement starts with one. *)
Lemma starts_with_through (w c s : jsstring) :
  isValidScope s = true ->
  Forall (fun x => x <> 64%N) w ->
  starts_with w (replaceReferences c s) = true -> starts_with w c = true.
Proof.
  intros Hs%valid_scope_plain Hw. revert c.
  induction Hw as [|a w Ha _ IH]; intros c; [done|].
  destruct c as [|x c]; [done|].
  destruct (starts_with oldPrefix (x :: c)) eqn:E.
  - rewrite (replaceReferences_hit _ _ Hs E), newPrefix_units. cbn.
    destruct (N.eqb_spec a 64); [congruence|done].
  - rewrite (replaceReferences_miss _ _ _ Hs E). cbn.
    intros [-> H]%andb_prop. apply IH in H. by rewrite H.
Qed.

(** After the replacement by another valid scope the old prefix is
    gone. *)
Lemma replaced_clean (c s : jsstring) :
  isValidScope s = true -> s <> js "ordinarysh" ->
  occursb oldPrefix (replaceReferences c s) = false.
Proof.
  intros Hs Hne. pose proof (valid_scope_plain s Hs) as Hplain.
  induction c as [|x c Hm IH|c Hm IH] using prefix_ind.
  - reflexivity.
  - rewrite (replaceReferences_miss _ _ _ Hplain Hm).
    cbn [occursb]. rewrite IH, orb_false_r.
    destruct (starts_with oldPrefix (x :: replaceReferences c s)) eqn:E; [|done].
    rewrite oldPrefix_units in E, Hm. cbn [starts_with] in E, Hm.
    apply andb_prop in E as [Hx E].
    apply (starts_with_through _ _ _ Hs ordinarysh_units) in E.
    by rewrite Hx, E in Hm.
  - rewrite (replaceReferences_hit _ _ Hplain Hm), newPrefix_units.
    cbn [occursb app].
    assert (Hskip : occursb oldPrefix
                      ((s ++ [47%N]) ++ replaceReferences (drop 12 c) s)
                    = occursb oldPrefix (replaceReferences (drop 12 c) s)).
    { apply (occursb_skip 64%N (js "ordinarysh" ++ [47%N])).
      apply Forall_app. split; [|by repeat constructor].
      apply valid_scope_avoids; [done|set_solver]. }
    rewrite Hskip, IH, orb_false_r.
    change oldPrefix with (64%N :: (js "ordinarysh" ++ [47%N])).
    cbn [starts_with]. rewrite N.eqb_refl, <- app_assoc. cbn [andb app].
    destruct (starts_with (js "ordinarysh" ++ [47%N]) _) eqn:E; [|done].
    apply starts_with_separator in E; [congruence|apply ordinarysh_no_slash|].
    apply valid_scope_avoids; [done|set_solver].
Qed.

(** Renaming to the scope the repository has changes nothing. *)
Lemma replace_same (c : jsstring) :
  replaceReferences c (js "ordinarysh") = c.
Proof.
  assert (Hplain : dollar_free (newPrefix (js "ordinarysh")))
    by (repeat constructor).
  induction c as [|x c Hm IH|c Hm IH] using prefix_ind.
  - reflexivity.
  - by rewrite (replaceReferences_miss _ _ _ Hplain Hm), IH.
  - rewrite (replaceReferences_hit _ _ Hplain Hm), IH.
    symmetry. apply (starts_with_split oldPrefix c Hm).
Qed.

(** Without an occurrence of the old prefix there is no match, so the
    result is the content, with any replacement text. *)
Lemma replace_without_occurrence (c s : jsstring) :
  ~ occurs oldPrefix c -> replaceReferences c s = c.
Proof.
  intros Hn. rewrite replaceReferences_replace_all.
  unfold replace_all, exec_all. rewrite scan_none; [done|].
  intros i pos. unfold prefix_re. rewrite match_at_Lit.
  by rewrite not_occurs_nowhere.
Qed.

(** The reference pattern starts with the old prefix. *)
Lemma reference_needs_prefix (pos : nat) (s : jsstring) :
  starts_with oldPrefix s = false -> match_at reference_re pos s = None.
Proof.
  intros H. unfold match_at, reference_re. cbn [rmatch].
  by rewrite rmatch_Lit, H.
Qed.

Lemma no_reference_without_occurrence (c : jsstring) :
  ~ occurs oldPrefix c -> match_all reference_re c = [].
Proof.
  intros Hn. unfold match_all, exec_all. rewrite scan_none; [done|].
  intros i pos. apply reference_needs_prefix. by apply not_occurs_nowhere.
Qed.

End Replaced.

(** * Lines *)

Section Lines.

Lemma split_on_length (sep : char) (s : jsstring) :
  length (split_on sep s) = S (count_unit sep s).
Proof.
  induction s as [|c s IH]; [done|]. cbn [split_on count_unit].
  destruct (c =? sep)%N; cbn [length]; [by rewrite IH|].
  destruct (split_on sep s); cbn [length] in *; lia.
Qed.

Lemma count_unit_app (u : char) (a b : jsstring) :
  count_unit u (a ++ b) = count_unit u a + count_unit u b.
Proof. induction a as [|c a IH]; cbn [app count_unit]; lia. Qed.

Lemma count_unit_none (u : char) (s : jsstring) :
  Forall (fun x => x <> u) s -> count_unit u s = 0.
Proof.
  induction 1 as [|c s Hc _ IH]; [done|]. cbn [count_unit].
  destruct (N.eqb_spec c u); [done|lia].
Qed.

(** The replacement neither adds nor removes a line feed. *)
Lemma replace_keeps_line_feeds (c s : jsstring) :
  isValidScope s = true ->
  count_unit newline (replaceReferences c s) = count_unit newline c.
Proof.
  intros Hs. pose proof (valid_scope_plain s Hs) as Hplain.
  induction c as [|x c Hm IH|c Hm IH] using prefix_ind.
  - reflexivity.
  - rewrite (replaceReferences_miss _ _ _ Hplain Hm). cbn [count_unit].
    by rewrite IH.
  - rewrite (replaceReferences_hit _ _ Hplain Hm).
    rewrite (starts_with_split _ _ Hm) at 2.
    rewrite !count_unit_app, IH, oldPrefix_length. f_equal.
    rewrite newPrefix_units. cbn [count_unit].
    rewrite count_unit_app, (count_unit_none _ s).
    + reflexivity.
    + apply valid_scope_avoids; [done|]. unfold newline. set_solver.
Qed.

Lemma diffLines_cons (old new : jsstring) (oldLines newLines : list jsstring) :
  diffLines (old :: oldLines) (new :: newLines)
  = (if bool_decide (new = old) then []
     else [DiffOld old; DiffNew (Some new)])
    ++ diffLines oldLines newLines.
Proof.
  unfold diffLines. cbn [length seq flat_map lookup list_lookup].
  f_equal.
  - destruct (decide (new = old)) as [->|Hne].
    + by rewrite !bool_decide_eq_true_2.
    + rewrite !bool_decide_eq_false_2; [done..|]. congruence.
  - rewrite <- seq_shift, flat_map_concat_map, map_map.
    by rewrite <- flat_map_concat_map.
Qed.

Lemma diffLines_aligned (oldLines newLines : list jsstring) :
  length newLines = length oldLines ->
  diffLines oldLines newLines = changed_pairs oldLines newLines.
Proof.
  revert newLines. induction oldLines as [|old oldLines IH];
    intros [|new newLines] Hlen; simplify_eq/=; [done|].
  rewrite diffLines_cons, IH by done. reflexivity.
Qed.

End Lines.

(** * Deduplication *)

Section Dedup.

Lemma dedup_seen_le (seen l : list jsstring) :
  length (dedup_seen seen l) <= length l.
Proof.
  revert seen. induction l as [|x l IH]; intros seen; [done|].
  cbn [dedup_seen]. case_bool_decide; cbn [length].
  - pose proof (IH seen). lia.
  - pose proof (IH (x :: seen)). lia.
Qed.

Lemma dedup_seen_full (seen l : list jsstring) :
  length (dedup_seen seen l) = length l ->
  NoDup l /\ forall x, x ∈ l -> x ∉ seen.
Proof.
  revert seen. induction l as [|x l IH]; intros seen.
  - intros _. split; [constructor|]. intros x Hx. by apply elem_of_nil in Hx.
  - cbn [dedup_seen]. case_bool_decide as Hx; cbn [length]; intros Hlen.
    + pose proof (dedup_seen_le seen l). lia.
    + destruct (IH (x :: seen)) as [Hnd Hfresh]; [lia|]. split.
      * constructor; [|done]. intros Hin. apply (Hfresh x Hin). by left.
      * intros y [->|Hy]%elem_of_cons; [done|].
        intros Hs. apply (Hfresh y Hy). by right.
Qed.

(** A list with a repeated element gets shorter. *)
Lemma dedup_shorter (l : list jsstring) (i j : nat) (x : jsstring) :
  i <> j -> l !! i = Some x -> l !! j = Some x ->
  length (dedup l) < length l.
Proof.
  intros Hij Hi Hj. pose proof (dedup_seen_le [] l) as Hle.
  destruct (decide (length (dedup l) = length l)) as [Heq|]; [|unfold dedup in *; lia].
  apply dedup_seen_full in Heq as [Hnd _].
  destruct Hij. by apply (NoDup_lookup l i j x).
Qed.

End Dedup.

(** * Effects *)

Section Effects.

Lemma bind_ret {A B} (m : M A) (k : A -> M B) (w w' : world) (a : A) :
  m w = (w', Ret a) -> bind m k w = k a w'.
Proof. unfold bind. by intros ->. Qed.

Lemma bind_throw {A B} (m : M A) (k : A -> M B) (w w' : world) (err : error) :
  m w = (w', Throw err) -> bind m k w = (w', Throw err).
Proof. unfold bind. by intros ->. Qed.

Lemma bind_exit {A B} (m : M A) (k : A -> M B) (w w' : world) (n : nat) :
  m w = (w', Exit n) -> bind m k w = (w', Exit n).
Proof. unfold bind. by intros ->. Qed.

Lemma bind_assoc {A B C} (m : M A) (k : A -> M B) (h : B -> M C) (w : world) :
  bind (bind m k) h w = bind m (fun a => bind (k a) h) w.
Proof. unfold bind. by destruct (m w) as [w' [a|n|err|]]. Qed.

Lemma bind_ext {A B} (m : M A) (k1 k2 : A -> M B) (w : world) :
  (forall a w', k1 a w' = k2 a w') -> bind m k1 w = bind m k2 w.
Proof. intros H. unfold bind. destruct (m w) as [w' [a|n|err|]]; auto. Qed.

Lemma log_emit (l : line) (w : world) : log l w = (emit [l] w, Ret tt).
Proof. reflexivity. Qed.

Lemma emit_emit (a b : list line) (w : world) :
  emit b (emit a w) = emit (a ++ b) w.
Proof. unfold emit. cbn. by rewrite app_assoc. Qed.

Lemma emit_nil (w : world) : emit [] w = w.
Proof. destruct w. unfold emit. cbn. by rewrite app_nil_r. Qed.

Lemma for_each_log {A} (f : A -> line) (xs : list A) (w : world) :
  for_each xs (fun x => log (f x)) w = (emit (f <$> xs) w, Ret tt).
Proof.
  revert w. induction xs as [|x xs IH]; intros w; cbn [for_each].
  - by rewrite emit_nil.
  - rewrite (bind_ret _ _ _ _ _ (log_emit _ _)), IH, emit_emit. done.
Qed.

Lemma for_each_log_id (ls : list line) (w : world) :
  for_each ls log w = (emit ls w, Ret tt).
Proof. rewrite (for_each_log id). by rewrite list_fmap_id. Qed.

(** The scan reads: it leaves the world as it is, and its outcome
    depends on the files only. *)
Lemma scanLoop_frame (e : env) (files : list jsstring) (acc : list finding)
    (w : world) :
  exists r : error + list finding, forall w',
    fs w' = fs w -> scanLoop e files acc w' = (w', scanned r).
Proof.
  revert acc. induction files as [|f files IH]; intros acc.
  - exists (inr acc). done.
  - cbn [scanLoop]. unfold bind, readFileContent.
    destruct (readFileSync (fs w) (path_join (rootDir e) f)) as [err|data] eqn:E.
    + destruct (code err) eqn:Ec.
      * destruct (IH acc) as [r Hr]. exists r. intros w' Hw'.
        rewrite Hw', E, Ec. by apply Hr.
      * exists (inl err). intros w' Hw'. by rewrite Hw', E, Ec.
      * exists (inl err). intros w' Hw'. by rewrite Hw', E, Ec.
    + destruct (falsy data) eqn:Ef;
        [|destruct (0 <? length (findReferences data)) eqn:El].
      * destruct (IH acc) as [r Hr]. exists r. intros w' Hw'.
        rewrite Hw', E, Ef. by apply Hr.
      * edestruct IH as [r Hr]. exists r. intros w' Hw'.
        rewrite Hw', E, Ef, El. by apply Hr.
      * destruct (IH acc) as [r Hr]. exists r. intros w' Hw'.
        rewrite Hw', E, Ef, El. by apply Hr.
Qed.

Lemma scanLoop_same_world (e : env) (files : list jsstring)
    (acc : list finding) (w w' : world) (o : outcome (list finding)) :
  scanLoop e files acc w = (w', o) ->
  w' = w /\ forall v, fs v = fs w -> scanLoop e files acc v = (v, o).
Proof.
  destruct (scanLoop_frame e files acc w) as [r Hr].
  rewrite (Hr w eq_refl). intros [= <- <-]. split; [done|]. apply Hr.
Qed.

Lemma scanLoop_app (e : env) (pre post : list jsstring) (acc : list finding)
    (w : world) :
  scanLoop e (pre ++ post) acc w
  = bind (scanLoop e pre acc) (scanLoop e post) w.
Proof.
  revert acc w. induction pre as [|f pre IH]; intros acc w; [done|].
  cbn [app scanLoop]. rewrite bind_assoc. apply bind_ext.
  intros [data|] w'; [|apply IH].
  destruct (falsy data); [apply IH|].
  destruct (0 <? _); apply IH.
Qed.

Lemma previewLoop_emit (findings : list finding) (s : jsstring) (w : world) :
  previewLoop findings s w = (emit (preview_lines findings s) w, Ret tt).
Proof.
  revert w. induction findings as [|f rest IH]; intros w.
  - cbn. by rewrite emit_nil.
  - cbn [previewLoop preview_lines].
    rewrite (bind_ret _ _ _ _ _ (log_emit _ _)).
    rewrite (bind_ret _ _ _ _ _ (log_emit _ _)).
    rewrite (bind_ret _ _ _ _ _ (for_each_log_id _ _)).
    destruct (0 <? length rest); cbn [when].
    + rewrite (bind_ret _ _ _ _ _ (log_emit _ _)), IH, !emit_emit.
      by rewrite <- ?app_assoc.
    + rewrite (bind_ret _ _ _ _ _ eq_refl), IH, !emit_emit.
      by rewrite <- ?app_assoc.
Qed.

(** The prompts read lines and print; they touch no file. *)
Lemma promptForScopeLoop_frame (lines : list jsstring) (w w' : world)
    (o : outcome jsstring) :
  promptForScopeLoop lines w = (w', o) ->
  fs w' = fs w /\ writes w' = writes w.
Proof.
  revert w. induction lines as [|l lines IH]; intros w;
    cbn [promptForScopeLoop]; unfold bind, ask, await.
  - destruct (stdin w); by intros [= <- <-].
  - destruct (stdin w) as [|input rest]; [by intros [= <- <-]|].
    destruct (falsy (trim input)); [|destruct (negb _)].
    + cbn. intros H. by apply IH in H.
    + cbn. intros H. by apply IH in H.
    + by intros [= <- <-].
Qed.

Lemma resolveScope_frame (cfg : config) (w w' : world) (o : outcome jsstring) :
  resolveScope cfg w = (w', o) -> fs w' = fs w /\ writes w' = writes w.
Proof.
  unfold resolveScope, promptForScope.
  destruct (newScope cfg) as [s|]; [destruct (falsy s)|].
  - apply promptForScopeLoop_frame.
  - by intros [= <- <-].
  - apply promptForScopeLoop_frame.
Qed.

(** One round of the confirmation prompt. *)
Lemma promptConfirmation_step (q : question) (w : world)
    (input : jsstring) (rest : list jsstring) :
  stdin w = input :: rest ->
  promptConfirmation q w =
    let answer := toLowerCase (trim input) in
    if is_no answer then (asked q w, Ret false)
    else if is_yes answer then (asked q w, Ret true)
    else promptConfirmation q (emit [YesNoHint] (asked q w)).
Proof.
  intros Hin. unfold promptConfirmation. rewrite Hin.
  cbn [promptConfirmationLoop].
  assert (Hask : ask q w = (asked q w, Ret input))
    by (unfold ask, asked; by rewrite Hin).
  rewrite (bind_ret _ _ _ _ _ Hask). cbn zeta.
  destruct (is_no _); [done|]. destruct (is_yes _); [done|].
  rewrite (bind_ret _ _ _ _ _ (log_emit _ _)).
  cbn [emit asked stdin tail]. by rewrite Hin.
Qed.

End Effects.

(** * The stages of main *)

Section Main.

Lemma scanFiles_emit (e : env) (w w' : world) (o : outcome (list finding))
    (ls : list line) :
  scanFiles e w = (w', o) ->
  w' = w /\ scanFiles e (emit ls w) = (emit ls w, o).
Proof.
  unfold scanFiles. intros [-> H]%scanLoop_same_world. split; [done|].
  by apply H.
Qed.

Lemma main_scan_throws (e : env) (cfg : config) (w : world) (err : error) :
  scanFiles e w = (w, Throw err) ->
  main e cfg w = (emit [Banner] w, Throw err).
Proof.
  intros [_ Hs]%(scanFiles_emit _ _ _ _ [Banner]). unfold main.
  rewrite (bind_ret _ _ _ _ _ (log_emit _ _)).
  by rewrite (bind_throw _ _ _ _ _ Hs).
Qed.

Lemma main_no_findings (e : env) (cfg : config) (w : world) :
  scanFiles e w = (w, Ret []) ->
  main e cfg w = (emit [Banner; NoReferences] w, Exit 0).
Proof.
  intros [_ Hs]%(scanFiles_emit _ _ _ _ [Banner]). unfold main.
  rewrite (bind_ret _ _ _ _ _ (log_emit _ _)).
  rewrite (bind_ret _ _ _ _ _ Hs). cbn [length Nat.eqb when].
  rewrite bind_assoc, (bind_ret _ _ _ _ _ (log_emit _ _)), emit_emit.
  done.
Qed.

Lemma main_preview (e : env) (cfg : config) (w : world)
    (findings : list finding) :
  scanFiles e w = (w, Ret findings) -> findings <> [] ->
  dryRun cfg = true ->
  main e cfg w =
    (emit ([Banner; FoundTotal (countReferences findings)]
           ++ ((fun f => FileCount (file f) (countFileReferences (content f)))
                 <$> findings)
           ++ [Blank]) w, Exit 0).
Proof.
  intros [_ Hs]%(scanFiles_emit _ _ _ _ [Banner]) Hne Hdry. unfold main.
  rewrite (bind_ret _ _ _ _ _ (log_emit _ _)).
  rewrite (bind_ret _ _ _ _ _ Hs).
  destruct findings as [|f findings]; [done|]. cbn [length Nat.eqb when].
  rewrite (bind_ret _ _ _ _ _ eq_refl), Hdry. cbn [when].
  rewrite !bind_assoc, (bind_ret _ _ _ _ _ (log_emit _ _)).
  rewrite !bind_assoc, (bind_ret _ _ _ _ _ (for_each_log _ _ _)).
  rewrite !bind_assoc, (bind_ret _ _ _ _ _ (log_emit _ _)).
  rewrite !emit_emit. unfold bind, exit. by rewrite <- ?app_assoc.
Qed.

(** Past the preview mode: the scope is settled, checked, and the
    changes are shown; what follows depends on the confirmation. *)
Lemma main_settled (e : env) (cfg : config) (w w2 : world)
    (findings : list finding) (s : jsstring) :
  scanFiles e w = (w, Ret findings) -> findings <> [] ->
  dryRun cfg = false ->
  resolveScope cfg (emit [Banner] w) = (w2, Ret s) ->
  main e cfg w =
    if negb (isValidScope s) then (emit [InvalidScopeError] w2, Exit 1)
    else if jseq s (js "ordinarysh") then (emit [AlreadyNamed] w2, Exit 0)
    else
      bind (promptConfirmation ContinueQuestion)
        (fun confirmed =>
           when (negb confirmed) (log Cancelled ;;; exit 0) ;;;
           updated <- applyRenaming cfg findings s ;;
           log (Renamed updated) ;;;
           log (AllChanged s) ;;;
           log NextSteps)
        (at_confirm findings s w2).
Proof.
  intros [_ Hs]%(scanFiles_emit _ _ _ _ [Banner]) Hne Hdry Hres.
  unfold main.
  rewrite (bind_ret _ _ _ _ _ (log_emit _ _)).
  rewrite (bind_ret _ _ _ _ _ Hs).
  destruct findings as [|f findings]; [done|]. cbn [length Nat.eqb when].
  rewrite (bind_ret _ _ _ _ _ eq_refl), Hdry. cbn [when].
  rewrite (bind_ret _ _ _ _ _ eq_refl).
  fold (resolveScope cfg). rewrite (bind_ret _ _ _ _ _ Hres).
  destruct (isValidScope s); cbn [negb when].
  - rewrite (bind_ret _ _ _ _ _ eq_refl).
    destruct (jseq s (js "ordinarysh")); cbn [when].
    + rewrite bind_assoc, (bind_ret _ _ _ _ _ (log_emit _ _)). done.
    + rewrite (bind_ret _ _ _ _ _ eq_refl).
      rewrite (bind_ret _ _ _ _ _ (log_emit _ _)).
      rewrite (bind_ret _ _ _ _ _ (previewLoop_emit _ _ _)).
      rewrite (bind_ret _ _ _ _ _ (log_emit _ _)).
      rewrite (bind_ret _ _ _ _ _ (log_emit _ _)).
      rewrite !emit_emit. unfold at_confirm. by rewrite <- ?app_assoc.
  - rewrite bind_assoc, (bind_ret _ _ _ _ _ (log_emit _ _)). done.
Qed.

Lemma main_cancelled (e : env) (cfg : config) (w w2 w3 : world)
    (findings : list finding) (s : jsstring) :
  scanFiles e w = (w, Ret findings) -> findings <> [] ->
  dryRun cfg = false ->
  resolveScope cfg (emit [Banner] w) = (w2, Ret s) ->
  isValidScope s = true -> s <> js "ordinarysh" ->
  promptConfirmation ContinueQuestion (at_confirm findings s w2)
    = (w3, Ret false) ->
  main e cfg w = (emit [Cancelled] w3, Exit 0).
Proof.
  intros Hs Hne Hdry Hres Hv Hn Hc.
  rewrite (main_settled e cfg w w2 findings s) by done.
  rewrite Hv. cbn [negb]. unfold jseq.
  rewrite bool_decide_eq_false_2 by done.
  rewrite (bind_ret _ _ _ _ _ Hc). cbn [negb when].
  by rewrite !bind_assoc, (bind_ret _ _ _ _ _ (log_emit _ _)).
Qed.

Lemma main_applies (e : env) (cfg : config) (w w2 w3 : world)
    (findings : list finding) (s : jsstring) :
  scanFiles e w = (w, Ret findings) -> findings <> [] ->
  dryRun cfg = false ->
  resolveScope cfg (emit [Banner] w) = (w2, Ret s) ->
  isValidScope s = true -> s <> js "ordinarysh" ->
  promptConfirmation ContinueQuestion (at_confirm findings s w2)
    = (w3, Ret true) ->
  main e cfg w =
    bind (applyRenaming cfg findings s)
      (fun updated =>
         log (Renamed updated) ;;; log (AllChanged s) ;;; log NextSteps) w3.
Proof.
  intros Hs Hne Hdry Hres Hv Hn Hc.
  rewrite (main_settled e cfg w w2 findings s) by done.
  rewrite Hv. cbn [negb]. unfold jseq.
  rewrite bool_decide_eq_false_2 by done.
  rewrite (bind_ret _ _ _ _ _ Hc). cbn [negb when].
  by rewrite (bind_ret _ _ _ _ _ eq_refl).
Qed.

End Main.

(** * Writing *)

Section Writing.

Lemma applyLoop_ok (cfg : config) (findings : list finding) (s : jsstring)
    (n : nat) (w : world) (files' : gmap jsstring node) :
  dryRun cfg = false ->
  write_all (fs w) (planned findings s) = inr files' ->
  applyLoop cfg findings s n w =
    ({| fs := files'; stdin := stdin w; out := out w;
        writes := writes w ++ planned findings s |},
     Ret (n + length findings)).
Proof.
  intros Hdry. revert n w. induction findings as [|f rest IH]; intros n w.
  - cbn. intros [= <-]. destruct w. cbn. by rewrite app_nil_r, Nat.add_0_r.
  - cbn [planned fmap list_fmap write_all applyLoop length].
    unfold bind, writeFileContent. rewrite Hdry.
    destruct (writeFileSync _ _ _) as [err|files1]; [done|].
    intros Hw. rewrite (IH _ {| fs := files1 |}) by done. cbn.
    rewrite <- app_assoc. do 2 f_equal. lia.
Qed.

Lemma applyLoop_fail (cfg : config) (pre : list finding) (f : finding)
    (post : list finding) (s : jsstring) (n : nat) (w : world)
    (files1 : gmap jsstring node) (err : error) :
  dryRun cfg = false ->
  write_all (fs w) (planned pre s) = inr files1 ->
  writeFileSync files1 (fullPath f) (replaceReferences (content f) s)
    = inl err ->
  applyLoop cfg (pre ++ f :: post) s n w =
    ({| fs := files1; stdin := stdin w; out := out w;
        writes := writes w ++ planned pre s |}, Throw err).
Proof.
  intros Hdry. revert n w. induction pre as [|g pre IH]; intros n w.
  - cbn. intros [= <-] Hf. unfold bind, writeFileContent.
    rewrite Hdry, Hf. destruct w. cbn. by rewrite app_nil_r.
  - cbn [app planned fmap list_fmap write_all applyLoop].
    unfold bind at 1. unfold writeFileContent at 1. rewrite Hdry.
    destruct (writeFileSync (fs w) _ _) as [err'|files2]; [done|].
    intros Hw Hf. rewrite (IH _ {| fs := files2 |}) by done. cbn.
    by rewrite <- app_assoc.
Qed.

Lemma writeFileSync_other (files files' : gmap jsstring node)
    (p q c : jsstring) :
  writeFileSync files q c = inr files' -> q <> p -> files' !! p = files !! p.
Proof.
  unfold writeFileSync. intros H Hne.
  repeat case_match; simplify_eq; by rewrite lookup_insert_ne.
Qed.

Lemma writeFileSync_here (files files' : gmap jsstring node) (p c : jsstring) :
  writeFileSync files p c = inr files' ->
  exists r, files' !! p = Some (File r true c).
Proof.
  unfold writeFileSync. intros H.
  repeat case_match; simplify_eq; eexists; apply lookup_insert_eq.
Qed.

Lemma write_all_other (files files' : gmap jsstring node)
    (l : list (jsstring * jsstring)) (p : jsstring) :
  write_all files l = inr files' -> p ∉ l.*1 -> files' !! p = files !! p.
Proof.
  revert files. induction l as [|[q c] l IH]; intros files.
  - by intros [= <-].
  - cbn [write_all fmap list_fmap fst].
    destruct (writeFileSync files q c) as [|files1] eqn:E; [done|].
    intros Hw [Hq Hl]%not_elem_of_cons.
    rewrite (IH _ Hw Hl). by apply (writeFileSync_other _ _ _ _ _ E).
Qed.

(** Every write that was done is on disk, when no path is written
    twice. *)
Lemma write_all_lookup (files files' : gmap jsstring node)
    (l : list (jsstring * jsstring)) (p c : jsstring) :
  write_all files l = inr files' -> NoDup l.*1 -> (p, c) ∈ l ->
  exists r, files' !! p = Some (File r true c).
Proof.
  revert files. induction l as [|[q d] l IH]; intros files.
  - intros _ _ H. by apply elem_of_nil in H.
  - cbn [write_all fmap list_fmap fst].
    destruct (writeFileSync files q d) as [|files1] eqn:E; [done|].
    intros Hw [Hq Hnd]%NoDup_cons [[= -> ->]|Hin]%elem_of_cons.
    + destruct (writeFileSync_here _ _ _ _ E) as [r Hr]. exists r.
      by rewrite (write_all_other _ _ _ _ Hw Hq).
    + by apply (IH files1).
Qed.

End Writing.

(** * The properties of the specification *)

(** C3. For every content without an occurrence of the old prefix
    [@ordinarysh/], [replaceReferences] returns the content unchanged,
    whatever the new scope is. *)
Theorem replaceReferences_identity (content newScope : jsstring) :
  ~ occurs oldPrefix content ->
  replaceReferences content newScope = content.
Proof.
  intros Hn. rewrite replaceReferences_replace_all.
  unfold replace_all, exec_all, prefix_re.
  assert (Hscan : scan (Lit oldPrefix) 0 0 content = []).
  { apply scan_none. intros i pos.
    by rewrite match_at_Lit, not_occurs_nowhere. }
  rewrite Hscan. reflexivity.
Qed.

Lemma replaceReferences_identity_witness :
  ~ occurs oldPrefix (js "import x from '@acme/ui';") /\
  replaceReferences (js "import x from '@acme/ui';") (js "$&")
  = js "import x from '@acme/ui';".
Proof.
  assert (H : ~ occurs oldPrefix (js "import x from '@acme/ui';"))
    by (apply not_occurs_check; vm_compute; reflexivity).
  split; [exact H|]. exact (replaceReferences_identity _ _ H).
Defined.

(** C4. For every content [c] and every valid scope name [s], replacing
    twice is replacing once:
    [replaceReferences (replaceReferences c s) s = replaceReferences c s]. *)
Theorem replaceReferences_idempotent (c s : jsstring) :
  isValidScope s = true ->
  replaceReferences (replaceReferences c s) s = replaceReferences c s.
Proof.
  intros Hs. destruct (decide (s = js "ordinarysh")) as [->|Hne].
  - by rewrite !replace_same.
  - apply replace_without_occurrence, not_occurs_check.
    by apply replaced_clean.
Qed.

Lemma replaceReferences_idempotent_witness :
  isValidScope (js "my-org") = true /\
  replaceReferences (replaceReferences page_text (js "my-org")) (js "my-org")
  = replaceReferences page_text (js "my-org").
Proof.
  assert (H : isValidScope (js "my-org") = true) by (vm_compute; reflexivity).
  split; [exact H|]. exact (replaceReferences_idempotent _ _ H).
Defined.

(** C5. For every content [c] and every valid scope name [s] other than
    [ordinarysh], the rewritten content has no match of the reference
    pattern: [findReferences (replaceReferences c s)] is empty and its
    count is zero, so a scan that reads the rewritten content from a file
    adds no finding for that file. *)
Theorem rewritten_content_has_no_reference (c s : jsstring) :
  isValidScope s = true -> s <> js "ordinarysh" ->
  findReferences (replaceReferences c s) = [] /\
  countFileReferences (replaceReferences c s) = 0 /\
  forall e f rest acc w,
    readFileSync (fs w) (path_join (rootDir e) f)
      = inr (replaceReferences c s) ->
    scanLoop e (f :: rest) acc w = scanLoop e rest acc w.
Proof.
  intros Hs Hne.
  assert (Hfind : findReferences (replaceReferences c s) = []).
  { unfold findReferences. destruct (falsy _); [done|].
    rewrite no_reference_without_occurrence; [done|].
    by apply not_occurs_check, replaced_clean. }
  split; [exact Hfind|]. split.
  - unfold countFileReferences. destruct (falsy _); [done|].
    rewrite no_reference_without_occurrence; [done|].
    by apply not_occurs_check, replaced_clean.
  - intros e f rest acc w Hread. cbn [scanLoop].
    unfold bind, readFileContent. rewrite Hread, Hfind.
    by destruct (falsy _).
Qed.

Lemma rewritten_content_has_no_reference_witness :
  isValidScope (js "acme") = true /\ js "acme" <> js "ordinarysh" /\
  findReferences (replaceReferences page_text (js "acme")) = [] /\
  countFileReferences (replaceReferences page_text (js "acme")) = 0.
Proof.
  assert (H1 : isValidScope (js "acme") = true) by (vm_compute; reflexivity).
  assert (H2 : js "acme" <> js "ordinarysh") by (vm_compute; discriminate).
  split; [exact H1|]. split; [exact H2|].
  destruct (rewritten_content_has_no_reference page_text _ H1 H2)
    as (Hfind & Hcount & _).
  split; [exact Hfind|exact Hcount].
Defined.

(** C6. [isValidScope s] is true exactly when [s] is in the language of
    [^[a-z0-9]([a-z0-9-]*[a-z0-9])?$]; it is false for the empty
    string, for every string with an upper-case letter, and for every
    string with a leading or a trailing hyphen. *)
Theorem isValidScope_spec :
  (forall s, isValidScope s = true <-> scope_shape s) /\
  isValidScope [] = false /\
  (forall s c, c ∈ s -> in_range "A" "Z" c = true ->
               isValidScope s = false) /\
  (forall s, head s = Some (ch "-") \/ last s = Some (ch "-") ->
             isValidScope s = false).
Proof.
  split_and!.
  - intros s. rewrite isValidScope_scope_ok. apply scope_ok_shape.
  - reflexivity.
  - intros s c Hc Hup. destruct (isValidScope s) eqn:E; [|done].
    apply valid_scope_units in E. rewrite Forall_forall in E.
    apply E, lower_alnum_hyphen_range in Hc.
    unfold in_range in Hup. change (ch "A") with 65%N in Hup.
    change (ch "Z") with 90%N in Hup.
    apply andb_prop in Hup as [?%N.leb_le ?%N.leb_le]. lia.
  - intros s Hs. destruct (isValidScope s) eqn:E; [|done].
    rewrite isValidScope_scope_ok in E.
    apply scope_ok_shape in E as (c & Hc & [-> | (w & d & -> & _ & Hd)]).
    + apply lower_alnum_range in Hc. change (ch "-") with 45%N in Hs.
      cbn in Hs. destruct Hs as [[= ->]|[= ->]]; lia.
    + apply lower_alnum_range in Hc, Hd. change (ch "-") with 45%N in Hs.
      rewrite app_comm_cons, last_snoc in Hs. cbn in Hs.
      destruct Hs as [[= ->]|[= ->]]; lia.
Qed.

Lemma isValidScope_spec_witness :
  isValidScope (js "my-org") = true /\
  isValidScope (js "myOrg") = false /\
  isValidScope (js "-org") = false /\
  isValidScope (js "org-") = false.
Proof.
  destruct isValidScope_spec as (Hshape & _ & Hupper & Hhyphen).
  split_and!.
  - apply Hshape. exists (ch "m"). split; [reflexivity|]. right.
    exists (js "y-or"), (ch "g"). split; [reflexivity|].
    split; [|reflexivity]. repeat constructor.
  - apply (Hupper _ (ch "O")); [|reflexivity].
    do 2 apply list_elem_of_further. apply list_elem_of_here.
  - apply Hhyphen. left. reflexivity.
  - apply Hhyphen. right. reflexivity.
Defined.

(** C9. For every content and every valid scope name the replacement
    keeps the number of lines, so the diff preview, which compares the
    lines index by index, prints one old/new pair for every index at
    which the two lines differ and nothing for the others. *)
Theorem replacement_keeps_lines (c s : jsstring) :
  isValidScope s = true ->
  length (split_on newline (replaceReferences c s))
  = length (split_on newline c) /\
  diffLines (split_on newline c) (split_on newline (replaceReferences c s))
  = changed_pairs (split_on newline c)
      (split_on newline (replaceReferences c s)).
Proof.
  intros Hs.
  assert (Hlen : length (split_on newline (replaceReferences c s))
                 = length (split_on newline c))
    by (by rewrite !split_on_length, replace_keeps_line_feeds).
  split; [exact Hlen|]. by apply diffLines_aligned.
Qed.

Lemma replacement_keeps_lines_witness :
  isValidScope (js "acme") = true /\
  length (split_on newline (replaceReferences manifest_text (js "acme"))) = 2 /\
  diffLines (split_on newline manifest_text)
    (split_on newline (replaceReferences manifest_text (js "acme")))
  = [DiffOld (js "{ 'name': '@ordinarysh/ui',");
     DiffNew (Some (js "{ 'name': '@acme/ui',"))].
Proof.
  assert (H : isValidScope (js "acme") = true) by (vm_compute; reflexivity).
  destruct (replacement_keeps_lines manifest_text _ H) as [Hlen Hdiff].
  split; [exact H|]. split.
  - rewrite Hlen. vm_compute. reflexivity.
  - rewrite Hdiff. vm_compute. reflexivity.
Defined.

(** C10. For a content in which the same reference text is matched
    more than once, [countFileReferences] is greater than the number of
    references [findReferences] returns; such contents exist, and in
    preview mode the count printed for a file can be greater than the
    total that is printed. *)
Theorem file_count_exceeds_references :
  (forall content i j x,
     i <> j ->
     match_all reference_re content !! i = Some x ->
     match_all reference_re content !! j = Some x ->
     length (findReferences content) < countFileReferences content) /\
  (exists content,
     length (findReferences content) < countFileReferences content) /\
  (exists e w total f count,
     out (run e [js "--check"] w).1
     = [Banner; FoundTotal total; FileCount f count; Blank] /\
     total < count).
Proof.
  split_and!.
  - intros content i j x Hij Hi Hj.
    unfold findReferences, countFileReferences.
    destruct content as [|c content]; [by destruct i|]. cbn [falsy].
    by apply (dedup_shorter _ i j x).
  - exists page_text. vm_compute. lia.
  - exists {| rootDir := js "/repo"; globSync := [[page]] |},
      (start disk []), 1, page, 2.
    split; [vm_compute; reflexivity|lia].
Qed.

Lemma file_count_exceeds_references_witness :
  length (findReferences page_text) < countFileReferences page_text.
Proof.
  destruct file_count_exceeds_references as (H & _ & _).
  apply (H page_text 0 1 (js "@ordinarysh/ui"));
    [discriminate|vm_compute; reflexivity..].
Defined.


Lemma parseArgs_preview (args : list jsstring) :
  js "--check" ∈ args \/ js "--dry-run" ∈ args ->
  dryRun (parseArgs args) = true.
Proof.
  intros H. cbn [parseArgs dryRun]. unfold includes.
  apply orb_true_iff. rewrite !bool_decide_eq_true. tauto.
Qed.

(** C1. With [--check] or [--dry-run] on the command line no file is
    changed and no write is done, however many findings there are: when
    the scan succeeds, the run prints the total and one count per file
    (or that there are no references) and exits with status 0. *)
Theorem preview_never_writes (e : env) (args : list jsstring) (w : world) :
  js "--check" ∈ args \/ js "--dry-run" ∈ args ->
  fs (run e args w).1 = fs w /\
  writes (run e args w).1 = writes w /\
  forall findings,
    scanFiles e w = (w, Ret findings) ->
    (run e args w).2 = Exited 0 /\
    out (run e args w).1 =
      out w ++
      match findings with
      | [] => [Banner; NoReferences]
      | _ :: _ =>
          [Banner; FoundTotal (countReferences findings)]
          ++ ((fun f => FileCount (file f)
                          (countFileReferences (content f))) <$> findings)
          ++ [Blank]
      end.
Proof.
  intros Hdry%parseArgs_preview. unfold run.
  destruct (scanLoop_frame e (getFilesToScan e) [] w) as [r Hr].
  specialize (Hr w eq_refl). fold (scanFiles e) in Hr.
  destruct r as [err|[|f findings]]; cbn [scanned] in Hr.
  - rewrite (main_scan_throws _ _ _ _ Hr). cbn. split_and!; [done..|].
    intros findings Hf. congruence.
  - rewrite (main_no_findings _ _ _ Hr). cbn. split_and!; [done..|].
    intros findings Hf. by assert (findings = []) as -> by congruence.
  - rewrite (main_preview _ _ _ _ Hr) by done. cbn. split_and!; [done..|].
    intros findings' Hf.
    by assert (findings' = f :: findings) as -> by congruence.
Qed.

Lemma preview_never_writes_witness :
  fs (run repo [js "--check"] (start disk [])).1 = disk /\
  writes (run repo [js "--check"] (start disk [])).1 = [] /\
  (run repo [js "--check"] (start disk [])).2 = Exited 0 /\
  out (run repo [js "--check"] (start disk [])).1
  = [Banner; FoundTotal 2; FileCount manifest 1; FileCount page 2; Blank].
Proof.
  assert (H : js "--check" ∈ [js "--check"] \/ js "--dry-run" ∈ [js "--check"])
    by (left; apply list_elem_of_here).
  destruct (preview_never_writes repo [js "--check"] (start disk []) H)
    as (Hfs & Hwr & Hout).
  destruct (Hout [manifest_finding; page_finding]) as [Hst Hlines];
    [vm_compute; reflexivity|].
  split; [exact Hfs|]. split; [exact Hwr|]. split; [exact Hst|].
  rewrite Hlines. vm_compute. reflexivity.
Defined.

(** C2, as the specification states it, fails: a file that exists and
    cannot be read is not skipped.  Here the manifest is unreadable:
    the scan throws instead of going on to the page. *)
Lemma unreadable_file_aborts_scan :
  ~ (forall (e : env) (pre : list jsstring) (f : jsstring)
            (post : list jsstring) (w : world) (err : error),
       getFilesToScan e = pre ++ f :: post ->
       readFileSync (fs w) (path_join (rootDir e) f) = inl err ->
       scanFiles e w = scanLoop e (pre ++ post) [] w).
Proof.
  intros H.
  specialize (H repo [] manifest [config_file; page]
                (start disk_unreadable [])
                {| code := EACCES; path := at_root manifest |}
                eq_refl eq_refl).
  vm_compute in H. discriminate H.
Qed.

(** C2, amended. A candidate file that does not exist when it is read
    (the read fails with ENOENT) is skipped silently: the scan gives
    what it gives without that file, and prints nothing.  A read that
    fails for another reason is thrown on and ends the scan. *)
Theorem scan_skips_missing_files (e : env) (pre : list jsstring)
    (f : jsstring) (post : list jsstring) (w : world) (err : error) :
  getFilesToScan e = pre ++ f :: post ->
  readFileSync (fs w) (path_join (rootDir e) f) = inl err ->
  (code err = ENOENT ->
     scanFiles e w = scanLoop e (pre ++ post) [] w) /\
  (code err <> ENOENT ->
     forall found, scanLoop e pre [] w = (w, Ret found) ->
     scanFiles e w = (w, Throw err)).
Proof.
  intros Hfiles Hread. unfold scanFiles. rewrite Hfiles, !scanLoop_app.
  split.
  - intros Hcode. unfold bind.
    destruct (scanLoop e pre [] w) as [w' o] eqn:E.
    apply scanLoop_same_world in E as [-> _].
    destruct o as [acc| | |]; [|done..].
    cbn [scanLoop]. unfold bind, readFileContent. by rewrite Hread, Hcode.
  - intros Hcode found Hpre. rewrite (bind_ret _ _ _ _ _ Hpre).
    cbn [scanLoop]. unfold bind, readFileContent. rewrite Hread.
    by destruct (code err).
Qed.

Lemma scan_skips_missing_files_witness :
  scanFiles repo (start disk []) = scanLoop repo [manifest; page] [] (start disk []) /\
  scanFiles repo (start disk_unreadable [])
  = (start disk_unreadable [], Throw {| code := EACCES; path := at_root manifest |}).
Proof.
  split.
  - apply (scan_skips_missing_files repo [manifest] config_file [page]
             (start disk []) {| code := ENOENT; path := at_root config_file |});
      reflexivity.
  - apply (scan_skips_missing_files repo [] manifest [config_file; page]
             (start disk_unreadable [])
             {| code := EACCES; path := at_root manifest |} eq_refl eq_refl
           ) with (found := []); [discriminate|reflexivity].
Defined.

Lemma is_no_spec (answer : jsstring) :
  is_no answer = bool_decide (answer ∈ [[]; js "n"; js "no"]).
Proof.
  unfold is_no, jseq. apply eq_true_iff_eq.
  rewrite !orb_true_iff, !bool_decide_eq_true, !elem_of_cons, elem_of_nil.
  tauto.
Qed.

Lemma is_yes_spec (answer : jsstring) :
  is_yes answer = bool_decide (answer ∈ [js "y"; js "yes"]).
Proof.
  unfold is_yes, jseq. apply eq_true_iff_eq.
  rewrite !orb_true_iff, !bool_decide_eq_true, !elem_of_cons, elem_of_nil.
  tauto.
Qed.

(** C7. The confirmation prompt trims and lower-cases the line it
    reads; it answers false for the empty string, [n] and [no], true
    for [y] and [yes], and prints a hint and asks again for anything
    else.  A blank answer ends the run as cancelled, with no file
    written. *)
Theorem confirmation_defaults_to_no :
  (forall q w input rest,
     stdin w = input :: rest ->
     promptConfirmation q w =
       let answer := toLowerCase (trim input) in
       if bool_decide (answer ∈ [[]; js "n"; js "no"])
       then (asked q w, Ret false)
       else if bool_decide (answer ∈ [js "y"; js "yes"])
       then (asked q w, Ret true)
       else promptConfirmation q (emit [YesNoHint] (asked q w))) /\
  (forall e cfg w findings s w2 input rest,
     scanFiles e w = (w, Ret findings) -> findings <> [] ->
     dryRun cfg = false ->
     resolveScope cfg (emit [Banner] w) = (w2, Ret s) ->
     isValidScope s = true -> s <> js "ordinarysh" ->
     stdin w2 = input :: rest -> trim input = [] ->
     exists w',
       main e cfg w = (w', Exit 0) /\
       fs w' = fs w /\ writes w' = writes w /\
       last (out w') = Some Cancelled).
Proof.
  split.
  - intros q w input rest Hin.
    rewrite (promptConfirmation_step q w input rest Hin).
    cbn zeta. by rewrite is_no_spec, is_yes_spec.
  - intros e cfg w findings s w2 input rest Hscan Hne Hdry Hres Hv Hs Hin Hblank.
    assert (Hc : promptConfirmation ContinueQuestion (at_confirm findings s w2)
                 = (asked ContinueQuestion (at_confirm findings s w2), Ret false)).
    { rewrite (promptConfirmation_step _ _ input rest) by done.
      cbn zeta. by rewrite Hblank. }
    exists (emit [Cancelled]
              (asked ContinueQuestion (at_confirm findings s w2))).
    split; [by apply (main_cancelled e cfg w w2 _ findings s)|].
    apply resolveScope_frame in Hres as [Hfs Hwr]. cbn.
    split; [done|]. split; [done|]. by rewrite last_snoc.
Qed.

Lemma confirmation_defaults_to_no_witness :
  promptConfirmation ContinueQuestion (start disk [js " No "; js "y"])
  = (asked ContinueQuestion (start disk [js " No "; js "y"]), Ret false) /\
  promptConfirmation ContinueQuestion (start disk [js "YES"])
  = (asked ContinueQuestion (start disk [js "YES"]), Ret true) /\
  exists w',
    main repo (parseArgs [js "--scope"; js "acme"]) (start disk [js "  "; js "y"])
    = (w', Exit 0) /\
    fs w' = disk /\ writes w' = [] /\ last (out w') = Some Cancelled.
Proof.
  destruct confirmation_defaults_to_no as [Hstep Hblank].
  split.
  { rewrite (Hstep ContinueQuestion (start disk [js " No "; js "y"])
               (js " No ") [js "y"] eq_refl).
    reflexivity. }
  split.
  { rewrite (Hstep ContinueQuestion (start disk [js "YES"]) (js "YES") []
               eq_refl).
    reflexivity. }
  apply (Hblank repo (parseArgs [js "--scope"; js "acme"])
           (start disk [js "  "; js "y"])
           [manifest_finding; page_finding] (js "acme")
           (emit [Banner] (start disk [js "  "; js "y"]))
           (js "  ") [js "y"]);
    try reflexivity; discriminate.
Defined.


Lemma planned_paths (findings : list finding) (s : jsstring) :
  (planned findings s).*1 = fullPath <$> findings.
Proof. unfold planned. by rewrite <- list_fmap_compose. Qed.

Lemma planned_elem (findings : list finding) (s : jsstring) (f : finding) :
  f ∈ findings ->
  (fullPath f, replaceReferences (content f) s) ∈ planned findings s.
Proof.
  intros Hf. unfold planned.
  by apply (list_elem_of_fmap_2
              (fun f => (fullPath f, replaceReferences (content f) s))).
Qed.

(** C8. [applyRenaming] writes the rewritten content of every finding
    to the absolute path of the finding; when every write succeeds it
    returns the number of findings.  When a write fails the error goes
    up to the top level, which reports it and exits with status 1; the
    files written before stay written. *)
Theorem applyRenaming_writes_or_aborts :
  (forall cfg findings s w files',
     dryRun cfg = false ->
     write_all (fs w) (planned findings s) = inr files' ->
     applyRenaming cfg findings s w =
       ({| fs := files'; stdin := stdin w; out := out w;
           writes := writes w ++ planned findings s |},
        Ret (length findings)) /\
     (NoDup (fullPath <$> findings) ->
      forall f, f ∈ findings ->
        exists r, files' !! fullPath f
                  = Some (File r true (replaceReferences (content f) s)))) /\
  (forall cfg pre f post s w files1 err,
     dryRun cfg = false ->
     write_all (fs w) (planned pre s) = inr files1 ->
     writeFileSync files1 (fullPath f) (replaceReferences (content f) s)
       = inl err ->
     applyRenaming cfg (pre ++ f :: post) s w =
       ({| fs := files1; stdin := stdin w; out := out w;
           writes := writes w ++ planned pre s |}, Throw err) /\
     (NoDup (fullPath <$> pre) ->
      forall g, g ∈ pre ->
        exists r, files1 !! fullPath g
                  = Some (File r true (replaceReferences (content g) s)))) /\
  (forall e args w w2 w3 w4 findings s err,
     scanFiles e w = (w, Ret findings) -> findings <> [] ->
     dryRun (parseArgs args) = false ->
     resolveScope (parseArgs args) (emit [Banner] w) = (w2, Ret s) ->
     isValidScope s = true -> s <> js "ordinarysh" ->
     promptConfirmation ContinueQuestion (at_confirm findings s w2)
       = (w3, Ret true) ->
     applyRenaming (parseArgs args) findings s w3 = (w4, Throw err) ->
     run e args w = (emit [ErrorReport err] w4, Exited 1)).
Proof.
  split_and!.
  - intros cfg findings s w files' Hdry Hw. split.
    + unfold applyRenaming. by rewrite (applyLoop_ok _ _ _ _ _ files').
    + intros Hnd f Hf.
      apply (write_all_lookup _ _ _ _ _ Hw);
        [by rewrite planned_paths|by apply planned_elem].
  - intros cfg pre f post s w files1 err Hdry Hw Hf. split.
    + unfold applyRenaming. by rewrite (applyLoop_fail _ _ _ _ _ _ _ files1 err).
    + intros Hnd g Hg.
      apply (write_all_lookup _ _ _ _ _ Hw);
        [by rewrite planned_paths|by apply planned_elem].
  - intros e args w w2 w3 w4 findings s err Hscan Hne Hdry Hres Hv Hs Hc Ha.
    unfold run.
    rewrite (main_applies e _ w w2 w3 findings s) by done.
    by rewrite (bind_throw _ _ _ _ _ Ha).
Qed.

Lemma applyRenaming_writes_or_aborts_witness :
  (applyRenaming (parseArgs []) [manifest_finding; page_finding] (js "acme")
     (start disk [])).2 = Ret 2 /\
  (exists files1,
     applyRenaming (parseArgs []) [manifest_finding; page_finding] (js "acme")
       (start disk_read_only [])
     = ({| fs := files1; stdin := []; out := [];
           writes := [(at_root manifest,
                       replaceReferences manifest_text (js "acme"))] |},
        Throw {| code := EACCES; path := at_root page |}) /\
     exists r, files1 !! at_root manifest
               = Some (File r true (replaceReferences manifest_text (js "acme")))) /\
  (run repo [js "--scope"; js "acme"] (start disk_read_only [js "y"])).2
  = Exited 1.
Proof.
  destruct applyRenaming_writes_or_aborts as (Hok & Hfail & Htop).
  split_and!.
  - destruct (Hok (parseArgs []) [manifest_finding; page_finding] (js "acme")
                (start disk [])
                (<[at_root page := File true true
                     (replaceReferences page_text (js "acme"))]>
                   (<[at_root manifest := File true true
                        (replaceReferences manifest_text (js "acme"))]> disk))
                eq_refl) as [-> _]; [vm_compute; reflexivity|reflexivity].
  - exists (<[at_root manifest := File true true
                (replaceReferences manifest_text (js "acme"))]> disk_read_only).
    destruct (Hfail (parseArgs []) [manifest_finding] page_finding []
                (js "acme") (start disk_read_only [])
                (<[at_root manifest := File true true
                     (replaceReferences manifest_text (js "acme"))]>
                   disk_read_only)
                {| code := EACCES; path := at_root page |} eq_refl)
      as [Hrun Hkept]; [vm_compute; reflexivity..|].
    split; [exact Hrun|].
    apply (Hkept (NoDup_singleton _) manifest_finding), list_elem_of_here.
  - set (w3 := asked ContinueQuestion
                 (at_confirm [manifest_finding; page_finding] (js "acme")
                    (emit [Banner] (start disk_read_only [js "y"])))).
    rewrite (Htop repo [js "--scope"; js "acme"]
               (start disk_read_only [js "y"])
               (emit [Banner] (start disk_read_only [js "y"]))
               w3
               (applyRenaming (parseArgs [js "--scope"; js "acme"])
                  [manifest_finding; page_finding] (js "acme") w3).1
               [manifest_finding; page_finding] (js "acme")
               {| code := EACCES; path := at_root page |});
      try (vm_compute; reflexivity); discriminate.
Defined.


(** * Scenarios of the specification *)

Example replace_scenario :
  replaceReferences (js "{'dependencies': {'@ordinarysh/ui': '*'}}") (js "myorg")
  = js "{'dependencies': {'@myorg/ui': '*'}}".
Proof. vm_compute. reflexivity. Qed.

Example find_scenario :
  findReferences
    (js "@ordinarysh/ui @ordinarysh/eslint-config @ordinarysh/ui @ordinarysh/")
  = [js "@ordinarysh/ui"; js "@ordinarysh/eslint-config"].
Proof. vm_compute. reflexivity. Qed.

Example valid_scenarios :
  List.map (fun s => isValidScope (js s))
    ["myorg"; "a"; "a-b"; "a--b9"; "-a"; "a-"; "Invalid_Scope"; "aB"; "a b"]%string
  = [true; true; true; true; false; false; false; false; false].
Proof. vm_compute. reflexivity. Qed.

(** A scope from the command line that is not valid: exit 1, nothing
    written, no prompt. *)
Example invalid_scope_scenario :
  let r := run repo [js "--scope"; js "Invalid_Scope"] (start disk [js "y"]) in
  r.2 = Exited 1 /\ out r.1 = [Banner; InvalidScopeError] /\
  fs r.1 = disk /\ writes r.1 = [] /\ stdin r.1 = [js "y"].
Proof. repeat split; vm_compute; reflexivity. Qed.

(** The scope the repository has: exit 0, nothing written. *)
Example same_scope_scenario :
  let r := run repo [js "--scope"; js "ordinarysh"] (start disk [js "y"]) in
  r.2 = Exited 0 /\ out r.1 = [Banner; AlreadyNamed] /\
  fs r.1 = disk /\ writes r.1 = [].
Proof. repeat split; vm_compute; reflexivity. Qed.

(** No file with a reference: exit 0, no prompt. *)
Example no_reference_scenario :
  let r := run {| rootDir := js "/repo"; globSync := [[config_file]] |} []
             (start disk [js "acme"; js "y"]) in
  r.2 = Exited 0 /\ out r.1 = [Banner; NoReferences] /\
  stdin r.1 = [js "acme"; js "y"].
Proof. repeat split; vm_compute; reflexivity. Qed.

(** The scope is asked for until it is valid, then the run is applied;
    a second run finds nothing. *)
Example interactive_scenario :
  let r := run repo [] (start disk [[]; js "Bad"; js " acme "; js "what"; js " Yes"]) in
  r.2 = Exited 0 /\
  writes r.1 = [(at_root manifest, replaceReferences manifest_text (js "acme"));
                (at_root page, replaceReferences page_text (js "acme"))] /\
  out (run repo [] (start (fs r.1) [])).1 = [Banner; NoReferences].
Proof. repeat split; vm_compute; reflexivity. Qed.


(** * More about the script *)

(** ** Deduplication and discovery *)

Lemma dedup_seen_elem (seen l : list jsstring) (x : jsstring) :
  x ∈ dedup_seen seen l <-> x ∈ l /\ x ∉ seen.
Proof.
  revert seen. induction l as [|y l IH]; intros seen; cbn [dedup_seen].
  - rewrite elem_of_nil. tauto.
  - case_bool_decide as Hy.
    + rewrite IH, elem_of_cons. split; [tauto|].
      intros [[->|Hx] Hs]; [done|tauto].
    + rewrite !elem_of_cons, IH, not_elem_of_cons. split.
      * intros [->|(Hx & Hne & Hs)]; tauto.
      * intros [[->|Hx] Hs]; [by left|].
        destruct (decide (x = y)) as [->|Hne]; [by left|right; tauto].
Qed.

Lemma dedup_seen_NoDup (seen l : list jsstring) : NoDup (dedup_seen seen l).
Proof.
  revert seen. induction l as [|y l IH]; intros seen; cbn [dedup_seen].
  - constructor.
  - case_bool_decide as Hy; [apply IH|]. constructor; [|apply IH].
    rewrite dedup_seen_elem, not_elem_of_cons. tauto.
Qed.

Lemma dedup_seen_sublist (seen l : list jsstring) :
  dedup_seen seen l `sublist_of` l.
Proof.
  revert seen. induction l as [|y l IH]; intros seen; cbn [dedup_seen].
  - constructor.
  - case_bool_decide; [apply sublist_cons|apply sublist_skip]; apply IH.
Qed.

(** X1. [getFilesToScan] returns every path that some pattern matches,
    each once, in the order in which the patterns give them. *)
Theorem getFilesToScan_no_duplicates (e : env) :
  NoDup (getFilesToScan e) /\
  (forall f, f ∈ getFilesToScan e <->
             exists matches, matches ∈ globSync e /\ f ∈ matches) /\
  getFilesToScan e `sublist_of` concat (globSync e).
Proof.
  unfold getFilesToScan, dedup. split_and!.
  - apply dedup_seen_NoDup.
  - intros f. rewrite dedup_seen_elem, elem_of_nil.
    rewrite list_elem_of_In, in_concat. split.
    + intros [(m & Hm & Hf) _]. exists m.
      by rewrite !list_elem_of_In.
    + intros (m & Hm & Hf). split; [|tauto]. exists m.
      by rewrite <- !list_elem_of_In.
  - apply dedup_seen_sublist.
Qed.

(** ** References *)

Lemma run_length_le (q : char -> bool) (s : jsstring) :
  run_length q s <= length s.
Proof.
  induction s as [|c s IH]; cbn [run_length length]; [lia|].
  destruct (q c); lia.
Qed.

Lemma run_length_take (q : char -> bool) (s : jsstring) :
  Forall (fun c => q c = true) (take (run_length q s) s).
Proof.
  induction s as [|c s IH]; cbn [run_length]; [constructor|].
  destruct (q c) eqn:E; cbn [take]; by constructor.
Qed.

Lemma run_length_stop (q : char -> bool) (s : jsstring) :
  match drop (run_length q s) s with
  | [] => True
  | c :: _ => q c = false
  end.
Proof.
  induction s as [|c s IH]; cbn [run_length]; [done|].
  destruct (q c) eqn:E; cbn [drop]; done.
Qed.

(** The greedy repetition of a class takes the longest run. *)
Lemma star_loop_class_run (q : char -> bool) (pos : nat) (s : jsstring) :
  star_loop (rmatch (Class q)) Some (length s) (pos, s)
  = Some (pos + run_length q s, drop (run_length q s) s).
Proof.
  revert pos. induction s as [|c s IH]; intros pos.
  - by rewrite star_loop_class_nil, Nat.add_0_r.
  - cbn [length run_length]. rewrite star_loop_class_cons.
    destruct (q c).
    + rewrite IH. cbn [drop]. do 2 f_equal. lia.
    + by rewrite Nat.add_0_r.
Qed.

(** A reference is the old prefix and the longest run of [[\w-]] after
    it, which is not empty. *)
Lemma match_at_reference (pos : nat) (t : jsstring) :
  match_at reference_re pos t =
    if starts_with oldPrefix t
       && (0 <? run_length word_hyphen (drop 12 t))
    then Some (pos + 12 + run_length word_hyphen (drop 12 t))
    else None.
Proof.
  unfold match_at, reference_re, Plus. cbn [rmatch].
  rewrite rmatch_Lit, oldPrefix_length.
  destruct (starts_with oldPrefix t); [|done]. cbn [andb].
  destruct (drop 12 t) as [|c u]; [done|].
  cbn [rmatch snd fst run_length]. destruct (word_hyphen c); [|done].
  change (star_loop _ Some (length u) (S (pos + 12), u))
    with (star_loop (rmatch (Class word_hyphen)) Some (length u)
            (S (pos + 12), u)).
  rewrite star_loop_class_run. cbn. do 2 f_equal. lia.
Qed.

(** Every match of a scan is a match of the pattern at its index. *)
Lemma scan_sound (r : regex) (k pos : nat) (s : jsstring) (a e : nat) :
  (a, e) ∈ scan r k pos s ->
  exists i, i <= length s /\ a = pos + i /\ match_at r a (drop i s) = Some e.
Proof.
  revert k pos. induction s as [|c s IH]; intros k pos.
  - destruct k as [|k]; cbn [scan]; [|by intros ?%elem_of_nil].
    destruct (match_at r pos []) as [e'|] eqn:E; [|by intros ?%elem_of_nil].
    intros [[= -> ->]|[]%elem_of_nil]%elem_of_cons.
    exists 0. by rewrite Nat.add_0_r.
  - assert (Hrest : forall k', (a, e) ∈ scan r k' (S pos) s ->
              exists i, i <= length (c :: s) /\ a = pos + i
                        /\ match_at r a (drop i (c :: s)) = Some e).
    { intros k' (i & Hi & -> & Hm)%IH. exists (S i). cbn [length drop].
      split; [lia|]. split; [lia|done]. }
    destruct k as [|k]; cbn [scan]; [|apply Hrest].
    destruct (match_at r pos (c :: s)) as [e'|] eqn:E; [|apply Hrest].
    intros [[= -> ->]|Hin]%elem_of_cons; [|by apply (Hrest _ Hin)].
    exists 0. rewrite Nat.add_0_r. cbn [drop length]. split; [lia|done].
Qed.

Lemma reference_match_shape (content x : jsstring) :
  x ∈ match_all reference_re content ->
  exists a name b,
    content = a ++ oldPrefix ++ name ++ b /\ x = oldPrefix ++ name /\
    name <> [] /\ Forall (fun c => word_hyphen c = true) name /\
    match b with [] => True | c :: _ => word_hyphen c = false end.
Proof.
  unfold match_all, exec_all.
  intros ([a e] & -> & Hin)%list_elem_of_fmap.
  apply scan_sound in Hin as (i & Hi & -> & Hm). cbn [fst snd Nat.add] in *.
  rewrite match_at_reference in Hm.
  destruct (starts_with oldPrefix (drop i content)) eqn:Hp; [|done].
  destruct (0 <? _) eqn:Hn; [|done]. cbn [andb] in Hm.
  injection Hm as <-. apply Nat.ltb_lt in Hn.
  set (t := drop i content) in *.
  set (n := run_length word_hyphen (drop 12 t)) in *.
  exists (take i content), (take n (drop 12 t)), (drop n (drop 12 t)).
  split_and!.
  - rewrite take_drop. rewrite <- oldPrefix_length at 1.
    rewrite <- (starts_with_split _ _ Hp). unfold t. by rewrite take_drop.
  - unfold substring. fold t.
    replace (i + 12 + n - i) with (length oldPrefix + n)
      by (rewrite oldPrefix_length; lia).
    rewrite (starts_with_split _ _ Hp) at 1.
    by rewrite take_app_add, oldPrefix_length.
  - intros Hnil. apply (f_equal length) in Hnil.
    rewrite length_take in Hnil. pose proof (run_length_le word_hyphen (drop 12 t)).
    cbn in Hnil. lia.
  - apply run_length_take.
  - apply run_length_stop.
Qed.

(** X2. The references that [findReferences] returns are pairwise
    different, and each is a token of the content: the old prefix and
    the longest run of word characters and hyphens after it, at least
    one. *)
Theorem findReferences_tokens (content : jsstring) :
  NoDup (findReferences content) /\
  forall x, x ∈ findReferences content ->
    exists a name b,
      content = a ++ oldPrefix ++ name ++ b /\ x = oldPrefix ++ name /\
      name <> [] /\ Forall (fun c => word_hyphen c = true) name /\
      match b with [] => True | c :: _ => word_hyphen c = false end.
Proof.
  unfold findReferences. destruct (falsy content).
  - split; [constructor|]. by intros x ?%elem_of_nil.
  - split; [apply dedup_seen_NoDup|].
    intros x [Hx _]%dedup_seen_elem. by apply reference_match_shape.
Qed.

Lemma findReferences_tokens_witness :
  exists a name b,
    page_text = a ++ oldPrefix ++ name ++ b /\
    js "@ordinarysh/ui" = oldPrefix ++ name /\ name <> [] /\
    Forall (fun c => word_hyphen c = true) name /\
    match b with [] => True | c :: _ => word_hyphen c = false end.
Proof.
  destruct (findReferences_tokens page_text) as [_ H].
  apply (H (js "@ordinarysh/ui")). vm_compute. apply list_elem_of_here.
Defined.

(** X3. [findReferences] never returns more than [countFileReferences]
    counts, and it returns nothing exactly when the count is zero: a
    file is a finding exactly when its printed count is positive. *)
Theorem references_and_count (content : jsstring) :
  length (findReferences content) <= countFileReferences content /\
  (findReferences content = [] <-> countFileReferences content = 0).
Proof.
  unfold findReferences, countFileReferences. destruct (falsy content);
    [done|]. split; [apply dedup_seen_le|].
  destruct (match_all reference_re content) as [|x l] eqn:E; [done|].
  split; [|done]. intros Hd.
  assert (Hx : x ∈ dedup (x :: l))
    by (apply dedup_seen_elem; split; [apply list_elem_of_here|apply not_elem_of_nil]).
  rewrite Hd in Hx. by apply elem_of_nil in Hx.
Qed.

(** ** Replacing, piece by piece *)

Lemma starts_with_past_unit (u : char) (p a b : jsstring) :
  Forall (fun x => x <> u) p ->
  starts_with p (a ++ u :: b) = starts_with p a.
Proof.
  intros Hp. revert a. induction Hp as [|c p Hc _ IH]; intros a; [done|].
  destruct a as [|x a]; cbn [app starts_with].
  - by destruct (N.eqb_spec c u).
  - by rewrite IH.
Qed.

(** A unit that is not in the old prefix separates what is replaced
    before it from what is replaced after it. *)
Lemma replace_across_unit (u : char) (a b s : jsstring) :
  isValidScope s = true -> Forall (fun x => x <> u) oldPrefix ->
  replaceReferences (a ++ u :: b) s
  = replaceReferences a s ++ u :: replaceReferences b s.
Proof.
  intros Hs Hu. pose proof (valid_scope_plain s Hs) as Hplain.
  induction a as [|x a Hm IH|a Hm IH] using prefix_ind.
  - cbn [app]. rewrite replaceReferences_miss; [done..|].
    apply (starts_with_past_unit u oldPrefix [] b Hu).
  - assert (Hm' : starts_with oldPrefix (x :: a ++ u :: b) = false)
      by (rewrite <- Hm; apply (starts_with_past_unit u oldPrefix (x :: a) b Hu)).
    cbn [app]. by rewrite !replaceReferences_miss, IH.
  - pose proof (starts_with_length _ _ Hm) as Hlen.
    rewrite oldPrefix_length in Hlen.
    rewrite (replaceReferences_hit (a ++ u :: b)), (replaceReferences_hit a);
      [|done..|by rewrite starts_with_past_unit].
    by rewrite drop_app_le, IH, <- app_assoc by done.
Qed.

Lemma split_on_none (sep : char) (a : jsstring) :
  Forall (fun x => x <> sep) a -> split_on sep a = [a].
Proof.
  induction 1 as [|x a Hx _ IH]; [done|]. cbn [split_on].
  destruct (N.eqb_spec x sep); [done|]. by rewrite IH.
Qed.

Lemma split_on_app_sep (sep : char) (a b : jsstring) :
  Forall (fun x => x <> sep) a ->
  split_on sep (a ++ sep :: b) = a :: split_on sep b.
Proof.
  induction 1 as [|x a Hx _ IH]; cbn [app split_on].
  - by rewrite N.eqb_refl.
  - destruct (N.eqb_spec x sep); [done|]. by rewrite IH.
Qed.

Lemma split_on_cases (sep : char) (c : jsstring) :
  Forall (fun x => x <> sep) c \/
  exists a b, c = a ++ sep :: b /\ Forall (fun x => x <> sep) a.
Proof.
  induction c as [|x c IH]; [by left|].
  destruct (N.eqb_spec x sep) as [->|Hne].
  - right. by exists [], c.
  - destruct IH as [H|(a & b & -> & Ha)]; [left; by constructor|].
    right. exists (x :: a), b. split; [done|by constructor].
Qed.

Lemma count_unit_zero (u : char) (s : jsstring) :
  count_unit u s = 0 -> Forall (fun x => x <> u) s.
Proof.
  induction s as [|c s IH]; [constructor|]. cbn [count_unit].
  destruct (N.eqb_spec c u); [lia|]. intros H. constructor; [done|].
  apply IH. lia.
Qed.

Lemma replace_no_line_feed (a s : jsstring) :
  isValidScope s = true -> Forall (fun x => x <> newline) a ->
  Forall (fun x => x <> newline) (replaceReferences a s).
Proof.
  intros Hs Ha. apply count_unit_zero.
  by rewrite replace_keeps_line_feeds, count_unit_none.
Qed.

Lemma oldPrefix_one_line : Forall (fun x => x <> newline) oldPrefix.
Proof. repeat constructor; by vm_compute. Qed.

(** The lines of the rewritten content are the rewritten lines. *)
Lemma split_replace (c s : jsstring) :
  isValidScope s = true ->
  split_on newline (replaceReferences c s)
  = (fun l => replaceReferences l s) <$> split_on newline c.
Proof.
  intros Hs.
  induction c as [c IH] using (induction_ltof1 _ (@length char)).
  unfold ltof in IH.
  destruct (split_on_cases newline c) as [Hc|(a & b & -> & Ha)].
  - rewrite (split_on_none _ c Hc). cbn [fmap list_fmap].
    by rewrite split_on_none by (by apply replace_no_line_feed).
  - rewrite (replace_across_unit newline a b s Hs oldPrefix_one_line).
    rewrite !split_on_app_sep by (done || by apply replace_no_line_feed).
    cbn [fmap list_fmap]. f_equal. apply IH.
    rewrite length_app. cbn [length]. lia.
Qed.

(** With another valid scope the content changes exactly when the old
    prefix occurs in it. *)
Lemma replace_changes_iff (c s : jsstring) :
  isValidScope s = true -> s <> js "ordinarysh" ->
  replaceReferences c s = c <-> occursb oldPrefix c = false.
Proof.
  intros Hs Hne. split.
  - intros H. rewrite <- H. by apply replaced_clean.
  - intros H. by apply replace_without_occurrence, not_occurs_check.
Qed.

(** X4. For a valid scope other than [ordinarysh] the lines of the
    rewritten content are the rewritten lines of the content, and the
    diff preview prints a pair exactly for the lines in which the old
    prefix occurs: the line and the rewritten line. *)
Theorem preview_shows_rewritten_lines (c s : jsstring) :
  isValidScope s = true -> s <> js "ordinarysh" ->
  split_on newline (replaceReferences c s)
  = (fun l => replaceReferences l s) <$> split_on newline c /\
  diffLines (split_on newline c) (split_on newline (replaceReferences c s))
  = flat_map
      (fun l => if occursb oldPrefix l
                then [DiffOld l; DiffNew (Some (replaceReferences l s))]
                else [])
      (split_on newline c).
Proof.
  intros Hs Hne. split; [by apply split_replace|].
  rewrite split_replace by done.
  rewrite diffLines_aligned by apply length_fmap.
  unfold changed_pairs.
  induction (split_on newline c) as [|l ls IH]; [done|].
  cbn [fmap list_fmap zip zip_with flat_map]. f_equal; [|apply IH].
  destruct (occursb oldPrefix l) eqn:E.
  - rewrite bool_decide_eq_false_2; [done|].
    rewrite (replace_changes_iff l s Hs Hne). congruence.
  - rewrite bool_decide_eq_true_2; [done|].
    by apply (replace_changes_iff l s Hs Hne).
Qed.

Lemma preview_shows_rewritten_lines_witness :
  diffLines (split_on newline manifest_text)
    (split_on newline (replaceReferences manifest_text (js "acme")))
  = [DiffOld (js "{ 'name': '@ordinarysh/ui',");
     DiffNew (Some (replaceReferences (js "{ 'name': '@ordinarysh/ui',")
                      (js "acme")))].
Proof.
  assert (H1 : isValidScope (js "acme") = true) by (vm_compute; reflexivity).
  assert (H2 : js "acme" <> js "ordinarysh") by (vm_compute; discriminate).
  destruct (preview_shows_rewritten_lines manifest_text _ H1 H2) as [_ ->].
  vm_compute. reflexivity.
Defined.

(** X5. With a valid scope other than [ordinarysh], a content changes
    under [replaceReferences] exactly when the old prefix occurs in it;
    so the content of every finding changes: no file is written back as
    it was. *)
Theorem finding_content_changes (c s : jsstring) :
  isValidScope s = true -> s <> js "ordinarysh" ->
  (replaceReferences c s <> c <-> occurs oldPrefix c) /\
  (findReferences c <> [] -> replaceReferences c s <> c).
Proof.
  intros Hs Hne.
  assert (Hiff : replaceReferences c s <> c <-> occurs oldPrefix c).
  { rewrite (replace_changes_iff c s Hs Hne), <- occursb_occurs.
    destruct (occursb oldPrefix c); split; congruence. }
  split; [exact Hiff|].
  intros Hrefs. apply Hiff.
  destruct (occursb oldPrefix c) eqn:E; [by apply occursb_occurs|].
  destruct Hrefs. unfold findReferences. destruct (falsy c); [done|].
  by rewrite no_reference_without_occurrence by (by apply not_occurs_check).
Qed.

Lemma finding_content_changes_witness :
  isValidScope (js "acme") = true /\
  replaceReferences page_text (js "acme") <> page_text.
Proof.
  assert (H1 : isValidScope (js "acme") = true) by (vm_compute; reflexivity).
  assert (H2 : js "acme" <> js "ordinarysh") by (vm_compute; discriminate).
  destruct (finding_content_changes page_text _ H1 H2) as [_ H].
  split; [exact H1|]. apply H. vm_compute. discriminate.
Defined.

(** ** What the scan finds *)

Lemma scanLoop_found (e : env) (candidates : list jsstring)
    (acc : list finding) (w : world) :
  scanLoop e candidates acc w =
    (w, match found_in e (fs w) candidates with
        | inr l => Ret (acc ++ l)
        | inl err => Throw err
        end).
Proof.
  revert acc. induction candidates as [|f rest IH]; intros acc.
  - cbn. by rewrite app_nil_r.
  - cbn [scanLoop found_in]. unfold bind, readFileContent, scan_file.
    destruct (readFileSync (fs w) (path_join (rootDir e) f)) as [err|data].
    + destruct (code err); [|done..]. rewrite IH.
      by destruct (found_in e (fs w) rest).
    + destruct (falsy data); [|destruct (0 <? _)]; rewrite IH;
        destruct (found_in e (fs w) rest); cbn [option_list app]; try done.
      by rewrite <- app_assoc.
Qed.

Lemma scanFiles_found (e : env) (w : world) :
  scanFiles e w =
    (w, match found_in e (fs w) (getFilesToScan e) with
        | inr l => Ret l
        | inl err => Throw err
        end).
Proof. unfold scanFiles. by rewrite scanLoop_found. Qed.

Lemma scan_file_finding (e : env) (files : gmap jsstring node)
    (f : jsstring) (fd : finding) :
  scan_file e files f = inr (Some fd) ->
  file fd = f /\ fullPath fd = path_join (rootDir e) f /\
  readFileSync files (path_join (rootDir e) f) = inr (content fd) /\
  references fd = findReferences (content fd) /\ references fd <> [].
Proof.
  unfold scan_file.
  destruct (readFileSync _ _) as [err|data]; [by destruct (code err)|].
  destruct (falsy data); [done|].
  destruct (0 <? length (findReferences data)) eqn:E; [|done].
  intros [= <-]. cbn. split_and!; try done.
  intros Hnil. by rewrite Hnil in E.
Qed.

Lemma scan_file_nothing (e : env) (files : gmap jsstring node)
    (f data : jsstring) :
  scan_file e files f = inr None ->
  readFileSync files (path_join (rootDir e) f) = inr data ->
  findReferences data = [].
Proof.
  unfold scan_file. intros H Hr. rewrite Hr in H.
  unfold findReferences in *. destruct (falsy data); [done|].
  destruct (dedup _); [done|]. cbn in H. done.
Qed.

Lemma found_in_each (e : env) (files : gmap jsstring node)
    (candidates : list jsstring) (l : list finding) :
  found_in e files candidates = inr l ->
  Forall (fun fd =>
            file fd ∈ candidates /\
            fullPath fd = path_join (rootDir e) (file fd) /\
            readFileSync files (fullPath fd) = inr (content fd) /\
            references fd = findReferences (content fd) /\
            references fd <> []) l.
Proof.
  revert l. induction candidates as [|f rest IH]; intros l; cbn [found_in].
  - intros [= <-]. constructor.
  - destruct (scan_file e files f) as [|o] eqn:E; [done|].
    destruct (found_in e files rest) as [|l']; [done|]. intros [= <-].
    apply Forall_app. split.
    + destruct o as [fd|]; [|constructor]. cbn. constructor; [|constructor].
      apply scan_file_finding in E as (<- & Hp & Hr & Hrefs & Hne).
      rewrite Hp. split_and!; try done. apply list_elem_of_here.
    + eapply Forall_impl; [by apply IH|]. cbn.
      intros fd (? & ? & ? & ? & ?). split_and!; try done.
      by apply list_elem_of_further.
Qed.

Lemma found_in_sublist (e : env) (files : gmap jsstring node)
    (candidates : list jsstring) (l : list finding) :
  found_in e files candidates = inr l ->
  file <$> l `sublist_of` candidates.
Proof.
  revert l. induction candidates as [|f rest IH]; intros l; cbn [found_in].
  - intros [= <-]. constructor.
  - destruct (scan_file e files f) as [|o] eqn:E; [done|].
    destruct (found_in e files rest) as [|l']; [done|]. intros [= <-].
    destruct o as [fd|]; cbn.
    + apply scan_file_finding in E as (<- & _). by apply sublist_skip, IH.
    + by apply sublist_cons, IH.
Qed.

Lemma found_in_complete (e : env) (files : gmap jsstring node)
    (candidates : list jsstring) (l : list finding) (f data : jsstring) :
  found_in e files candidates = inr l ->
  f ∈ candidates ->
  readFileSync files (path_join (rootDir e) f) = inr data ->
  findReferences data <> [] ->
  f ∈ file <$> l.
Proof.
  revert l. induction candidates as [|g rest IH]; intros l; cbn [found_in].
  - by intros _ ?%elem_of_nil.
  - destruct (scan_file e files g) as [|o] eqn:E; [done|].
    destruct (found_in e files rest) as [|l']; [done|]. intros [= <-].
    rewrite fmap_app, elem_of_app.
    intros [->|Hin]%elem_of_cons Hr Hrefs; [left|right; by apply IH].
    destruct o as [fd|].
    + apply scan_file_finding in E as (<- & _). cbn. apply list_elem_of_here.
    + destruct Hrefs. by apply (scan_file_nothing e files g data).
Qed.

Lemma path_join_inj (root : jsstring) : Inj (=) (=) (path_join root).
Proof.
  intros a b H. unfold path_join in H.
  by apply app_inv_head, app_inv_head in H.
Qed.

(** X6. What [scanFiles] returns: the world is as it was; every finding
    belongs to a discovered file, holds the text that is on disk at its
    absolute path and the references of that text, of which there is at
    least one; the findings come in the order of discovery, no path
    twice; and no readable file with a reference is left out. *)
Theorem scanFiles_findings (e : env) (w w' : world)
    (findings : list finding) :
  scanFiles e w = (w', Ret findings) ->
  w' = w /\
  Forall (fun fd =>
            file fd ∈ getFilesToScan e /\
            fullPath fd = path_join (rootDir e) (file fd) /\
            readFileSync (fs w) (fullPath fd) = inr (content fd) /\
            references fd = findReferences (content fd) /\
            references fd <> []) findings /\
  file <$> findings `sublist_of` getFilesToScan e /\
  NoDup (fullPath <$> findings) /\
  forall f data,
    f ∈ getFilesToScan e ->
    readFileSync (fs w) (path_join (rootDir e) f) = inr data ->
    findReferences data <> [] ->
    f ∈ file <$> findings.
Proof.
  rewrite scanFiles_found.
  destruct (found_in e (fs w) (getFilesToScan e)) as [|l] eqn:E; [done|].
  intros [= <- <-]. split; [done|].
  pose proof (found_in_each _ _ _ _ E) as Heach.
  pose proof (found_in_sublist _ _ _ _ E) as Hsub.
  split_and!; [done|done| |].
  - assert (Hpaths : fullPath <$> l = path_join (rootDir e) <$> (file <$> l)).
    { rewrite <- list_fmap_compose. apply Forall_fmap_ext.
      eapply Forall_impl; [exact Heach|]. cbn. tauto. }
    rewrite Hpaths. apply NoDup_fmap_2_strong.
    { intros x y _ _. apply path_join_inj. }
    eapply sublist_NoDup; [apply dedup_seen_NoDup|exact Hsub].
  - intros f data. by apply found_in_complete.
Qed.

Lemma scanFiles_findings_witness :
  NoDup (fullPath <$> [manifest_finding; page_finding]) /\
  page ∈ file <$> [manifest_finding; page_finding].
Proof.
  destruct (scanFiles_findings repo (start disk []) (start disk [])
              [manifest_finding; page_finding])
    as (_ & _ & _ & Hnd & Hall); [vm_compute; reflexivity|].
  split; [exact Hnd|].
  apply (Hall page page_text); [vm_compute| |vm_compute; discriminate].
  - do 2 apply list_elem_of_further. apply list_elem_of_here.
  - vm_compute. reflexivity.
Defined.

(** ** Totals *)

Lemma countReferences_sum (findings : list finding) :
  countReferences findings
  = sum_list ((fun f => length (references f)) <$> findings).
Proof.
  unfold countReferences.
  assert (H : forall n, foldl (fun sum f => sum + length (references f)) n findings
                        = n + sum_list ((fun f => length (references f)) <$> findings)).
  { induction findings as [|f l IH]; intros n; cbn; [lia|]. rewrite IH. lia. }
  apply (H 0).
Qed.

Lemma findReferences_le_count (content : jsstring) :
  length (findReferences content) <= countFileReferences content.
Proof.
  unfold findReferences, countFileReferences.
  destruct (falsy content); [done|]. apply dedup_seen_le.
Qed.

(** X7. For the findings of a scan, the total that is printed is at
    least the number of findings and at most the sum of the counts that
    the preview prints per file. *)
Theorem total_between_files_and_counts (e : env) (w w' : world)
    (findings : list finding) :
  scanFiles e w = (w', Ret findings) ->
  length findings <= countReferences findings /\
  countReferences findings <= file_counts findings.
Proof.
  rewrite scanFiles_found.
  destruct (found_in e (fs w) (getFilesToScan e)) as [|l] eqn:E; [done|].
  intros [= <- <-]. apply found_in_each in E.
  rewrite countReferences_sum. unfold file_counts.
  induction E as [|fd l (_ & _ & _ & Hrefs & Hne) _ IH]; [done|].
  cbn [fmap list_fmap sum_list sum_list_with length].
  pose proof (findReferences_le_count (content fd)) as Hle.
  rewrite <- Hrefs in Hle.
  destruct (references fd) as [|x refs]; [done|]. cbn [length] in *.
  unfold id in *. lia.
Qed.

Lemma total_between_files_and_counts_witness :
  2 <= countReferences [manifest_finding; page_finding] /\
  countReferences [manifest_finding; page_finding]
  <= file_counts [manifest_finding; page_finding].
Proof.
  assert (H : scanFiles repo (start disk [])
              = (start disk [], Ret [manifest_finding; page_finding]))
    by (vm_compute; reflexivity).
  exact (total_between_files_and_counts repo (start disk []) (start disk [])
           [manifest_finding; page_finding] H).
Defined.

(** ** Applying, and scanning again *)

(** X8. In preview mode [applyRenaming] writes nothing and leaves the
    world as it is, and still returns the number of findings. *)
Theorem applyRenaming_dry_run (cfg : config) (findings : list finding)
    (s : jsstring) (w : world) :
  dryRun cfg = true ->
  applyRenaming cfg findings s w = (w, Ret (length findings)).
Proof.
  intros Hdry. unfold applyRenaming.
  assert (H : forall n, applyLoop cfg findings s n w
                        = (w, Ret (n + length findings))).
  { induction findings as [|f l IH]; intros n; cbn [applyLoop length].
    - by rewrite Nat.add_0_r.
    - unfold bind, writeFileContent. rewrite Hdry. cbn.
      rewrite IH. do 2 f_equal. lia. }
  apply (H 0).
Qed.

Lemma applyRenaming_dry_run_witness :
  applyRenaming (parseArgs [js "--dry-run"]) [manifest_finding; page_finding]
    (js "acme") (start disk_read_only [])
  = (start disk_read_only [], Ret 2).
Proof.
  apply (applyRenaming_dry_run (parseArgs [js "--dry-run"])
           [manifest_finding; page_finding]).
  reflexivity.
Defined.

Lemma applyLoop_written (cfg : config) (findings : list finding)
    (s : jsstring) (n m : nat) (w w' : world) :
  dryRun cfg = false ->
  applyLoop cfg findings s n w = (w', Ret m) ->
  write_all (fs w) (planned findings s) = inr (fs w').
Proof.
  intros Hdry. revert n w. induction findings as [|f l IH]; intros n w.
  - cbn. by intros [= <- _].
  - cbn [applyLoop planned fmap list_fmap write_all].
    unfold bind, writeFileContent. rewrite Hdry.
    destruct (writeFileSync _ _ _) as [err|files1]; [done|].
    intros H. by apply IH in H.
Qed.

Lemma readFileSync_lookup (files1 files2 : gmap jsstring node) (p : jsstring) :
  files1 !! p = files2 !! p -> readFileSync files1 p = readFileSync files2 p.
Proof. unfold readFileSync. by intros ->. Qed.

Lemma writeFileSync_read (files files' : gmap jsstring node)
    (p old new : jsstring) :
  readFileSync files p = inr old ->
  writeFileSync files p new = inr files' ->
  readFileSync files' p = inr new.
Proof.
  unfold readFileSync, writeFileSync.
  destruct (files !! p) as [[[] [] data|]|]; try done.
  intros _ [= <-]. by rewrite lookup_insert_eq.
Qed.

Lemma rewritten_not_found (e : env) (files : gmap jsstring node)
    (f c s : jsstring) :
  isValidScope s = true -> s <> js "ordinarysh" ->
  readFileSync files (path_join (rootDir e) f) = inr (replaceReferences c s) ->
  scan_file e files f = inr None.
Proof.
  intros Hs Hne Hr. unfold scan_file. rewrite Hr.
  destruct (falsy _) eqn:Ef; [done|]. unfold findReferences. rewrite Ef.
  by rewrite no_reference_without_occurrence
    by (by apply not_occurs_check, replaced_clean).
Qed.

Lemma planned_paths_found (e : env) (files : gmap jsstring node)
    (candidates : list jsstring) (l : list finding) (s p : jsstring) :
  found_in e files candidates = inr l ->
  p ∈ (planned l s).*1 ->
  exists g, g ∈ candidates /\ p = path_join (rootDir e) g.
Proof.
  intros Hf. rewrite planned_paths.
  intros (fd & -> & Hfd)%list_elem_of_fmap.
  apply found_in_each in Hf. rewrite Forall_forall in Hf.
  destruct (Hf fd Hfd) as (Hin & Hp & _). eauto.
Qed.

(** After the planned writes, a scan of the same candidates finds
    nothing, whatever else differs outside their paths. *)
Lemma found_in_after (e : env) (s : jsstring) (files : gmap jsstring node)
    (candidates : list jsstring) :
  isValidScope s = true -> s <> js "ordinarysh" ->
  NoDup candidates ->
  forall (l : list finding) (files0 files' : gmap jsstring node),
    found_in e files candidates = inr l ->
    (forall g, g ∈ candidates ->
       files0 !! path_join (rootDir e) g = files !! path_join (rootDir e) g) ->
    write_all files0 (planned l s) = inr files' ->
    found_in e files' candidates = inr [].
Proof.
  intros Hs Hne. induction 1 as [|f rest Hf Hnd IH]; intros l files0 files';
    [done|].
  cbn [found_in].
  destruct (scan_file e files f) as [|o] eqn:E; [done|].
  destruct (found_in e files rest) as [|l'] eqn:Erest; [done|].
  intros [= <-] Hagree Hw.
  assert (Hfresh : forall l0, found_in e files rest = inr l0 ->
            path_join (rootDir e) f ∉ (planned l0 s).*1).
  { intros l0 Hl0 (g & Hg & Heq)%(planned_paths_found e files rest l0 s).
    - apply path_join_inj in Heq as ->. done.
    - done. }
  destruct o as [fd|].
  - apply scan_file_finding in E as (Hfile & Hpath & Hread & _).
    change (planned (option_list (Some fd) ++ l') s)
      with ((fullPath fd, replaceReferences (content fd) s) :: planned l' s)
      in Hw.
    cbn [write_all] in Hw. rewrite Hpath in Hw.
    destruct (writeFileSync files0 _ _) as [|files1] eqn:Ew; [done|].
    assert (Hr1 : readFileSync files1 (path_join (rootDir e) f)
                  = inr (replaceReferences (content fd) s)).
    { apply (writeFileSync_read files0 _ _ (content fd)); [|done].
      rewrite <- Hread.
      apply readFileSync_lookup, Hagree, list_elem_of_here. }
    rewrite (rewritten_not_found e files' f (content fd) s Hs Hne).
    + rewrite (IH l' files1 files' eq_refl); [done| |done].
      intros g Hg. rewrite <- (Hagree g) by by apply list_elem_of_further.
      apply (writeFileSync_other _ _ _ _ _ Ew).
      intros Heq%path_join_inj. by subst.
    + rewrite <- Hr1. apply readFileSync_lookup.
      apply (write_all_other _ _ _ _ Hw), (Hfresh l' Erest).
  - assert (Hsame : scan_file e files' f = scan_file e files f).
    { unfold scan_file. f_equal.
      rewrite (readFileSync_lookup files' files); [done|].
      rewrite (write_all_other _ _ _ _ Hw) by apply (Hfresh l' Erest).
      apply Hagree, list_elem_of_here. }
    rewrite Hsame, E.
    rewrite (IH l' files0 files' eq_refl); [done| |done].
    intros g Hg. by apply Hagree, list_elem_of_further.
Qed.

(** X9. When [applyRenaming] has written every finding of a scan, with a
    valid scope other than [ordinarysh], a scan of the resulting files
    finds nothing: a second run prints that there are no references and
    exits with status 0, whatever its arguments. *)
Theorem second_run_finds_nothing (e : env) (cfg : config) (w w3 w4 : world)
    (findings : list finding) (s : jsstring) (n : nat) :
  scanFiles e w = (w, Ret findings) ->
  isValidScope s = true -> s <> js "ordinarysh" ->
  dryRun cfg = false -> fs w3 = fs w ->
  applyRenaming cfg findings s w3 = (w4, Ret n) ->
  scanFiles e w4 = (w4, Ret []) /\
  forall args, run e args w4 = (emit [Banner; NoReferences] w4, Exited 0).
Proof.
  intros Hscan Hs Hne Hdry Hfs Happly.
  assert (Hnone : scanFiles e w4 = (w4, Ret [])).
  { rewrite scanFiles_found in *.
    destruct (found_in e (fs w) (getFilesToScan e)) as [|l] eqn:E; [done|].
    injection Hscan as <-.
    apply applyLoop_written in Happly; [|done].
    rewrite (found_in_after e s (fs w) (getFilesToScan e) Hs Hne
               (dedup_seen_NoDup _ _) l (fs w3) (fs w4)); [done..| |done].
    intros g _. by rewrite Hfs. }
  split; [exact Hnone|].
  intros args. unfold run. by rewrite (main_no_findings _ _ _ Hnone).
Qed.

Lemma second_run_finds_nothing_witness :
  exists w4,
    applyRenaming (parseArgs []) [manifest_finding; page_finding] (js "acme")
      (start disk [])
    = (w4, Ret 2) /\
    run repo [js "--check"] w4 = (emit [Banner; NoReferences] w4, Exited 0).
Proof.
  exists (applyRenaming (parseArgs []) [manifest_finding; page_finding]
            (js "acme") (start disk [])).1.
  split; [vm_compute; reflexivity|].
  apply (second_run_finds_nothing repo (parseArgs []) (start disk [])
           (start disk []) _ [manifest_finding; page_finding] (js "acme") 2);
    try (vm_compute; reflexivity).
  vm_compute. discriminate.
Defined.

(** ** The prompts *)

Lemma asked_stdin (q : question) (w : world) (input : jsstring)
    (rest : list jsstring) :
  stdin w = input :: rest ->
  ask q w = (asked q w, Ret input) /\
  asked q w = {| fs := fs w; stdin := rest; out := out w ++ [Ask q];
                 writes := writes w |}.
Proof. intros Hin. unfold ask, asked. by rewrite Hin. Qed.

(** One round of the scope prompt. *)
Lemma promptForScope_step (w : world) (input : jsstring)
    (rest : list jsstring) :
  stdin w = input :: rest ->
  promptForScope w =
    if isValidScope (trim input) then (asked ScopeQuestion w, Ret (trim input))
    else promptForScope (emit [scope_hint input] (asked ScopeQuestion w)).
Proof.
  intros Hin. destruct (asked_stdin ScopeQuestion w input rest Hin) as [Hask Hw].
  unfold promptForScope at 1. rewrite Hin. cbn [promptForScopeLoop].
  rewrite (bind_ret _ _ _ _ _ Hask). cbn zeta. unfold scope_hint.
  assert (Hrest : stdin (asked ScopeQuestion w) = rest) by (by rewrite Hw).
  destruct (falsy (trim input)) eqn:Ef.
  - destruct (trim input); [|done]. cbn [isValidScope].
    rewrite (bind_ret _ _ _ _ _ (log_emit _ _)).
    unfold promptForScope. cbn [emit stdin]. by rewrite Hrest.
  - destruct (isValidScope (trim input)); cbn [negb]; [done|].
    rewrite (bind_ret _ _ _ _ _ (log_emit _ _)).
    unfold promptForScope. cbn [emit stdin]. by rewrite Hrest.
Qed.

Lemma promptForScope_empty (w : world) :
  stdin w = [] -> promptForScope w = (asked ScopeQuestion w, Await).
Proof.
  intros Hin. unfold promptForScope. rewrite Hin. cbn [promptForScopeLoop].
  unfold bind, ask, asked, await. by rewrite Hin.
Qed.

(** What the scope prompt ends with: a valid scope, or waiting; the
    files are untouched and the input left is a rest of the input. *)
Lemma promptForScope_ends (w w' : world) (o : outcome jsstring) :
  promptForScope w = (w', o) ->
  fs w' = fs w /\ writes w' = writes w /\
  stdin w' `suffix_of` stdin w /\
  (o = Await \/ exists s, o = Ret s /\ isValidScope s = true).
Proof.
  remember (stdin w) as lines eqn:Hl. revert w Hl.
  induction lines as [|input rest IH]; intros w Hl.
  - rewrite promptForScope_empty by done. intros [= <- <-].
    cbn. rewrite <- Hl. split_and!; try done. by left.
  - rewrite (promptForScope_step w input rest) by done.
    destruct (asked_stdin ScopeQuestion w input rest (eq_sym Hl)) as [_ Hw].
    destruct (isValidScope (trim input)) eqn:Hv.
    + intros [= <- <-]. rewrite Hw. cbn. split_and!; try done.
      * by exists [input].
      * right. eauto.
    + intros H. apply IH in H; [|by rewrite Hw].
      rewrite Hw in H. cbn in H. destruct H as (? & ? & Hsuf & ?).
      split_and!; try done. by apply suffix_cons_r.
Qed.

(** X10. The scope prompt takes the first line of input whose trimmed
    text is a valid scope name and returns that text; for every line
    before it, it asks and prints a hint, one hint for a blank line and
    another for a line that is not a valid name.  It only returns valid
    names, and when no line is valid it goes on waiting. *)
Theorem promptForScope_first_valid :
  (forall w skipped input rest,
     stdin w = skipped ++ input :: rest ->
     Forall (fun l => isValidScope (trim l) = false) skipped ->
     isValidScope (trim input) = true ->
     promptForScope w =
       ({| fs := fs w; stdin := rest;
           out := out w
                  ++ flat_map (fun l => [Ask ScopeQuestion; scope_hint l]) skipped
                  ++ [Ask ScopeQuestion];
           writes := writes w |}, Ret (trim input))) /\
  (forall w w' s, promptForScope w = (w', Ret s) -> isValidScope s = true) /\
  (forall w,
     Forall (fun l => isValidScope (trim l) = false) (stdin w) ->
     promptForScope w =
       ({| fs := fs w; stdin := [];
           out := out w
                  ++ flat_map (fun l => [Ask ScopeQuestion; scope_hint l]) (stdin w)
                  ++ [Ask ScopeQuestion];
           writes := writes w |}, Await)).
Proof.
  split_and!.
  - intros w skipped. revert w.
    induction skipped as [|l skipped IH]; intros w input rest Hin Hsk Hv.
    + rewrite (promptForScope_step w input rest Hin), Hv.
      by destruct (asked_stdin ScopeQuestion w input rest Hin) as [_ ->].
    + apply Forall_cons in Hsk as [Hl Hsk].
      rewrite (promptForScope_step w l (skipped ++ input :: rest) Hin), Hl.
      destruct (asked_stdin ScopeQuestion w l _ Hin) as [_ Hw].
      rewrite (IH _ input rest); [|by rewrite Hw|done..].
      rewrite Hw. cbn. by rewrite <- !app_assoc.
  - intros w w' s (_ & _ & _ & [|(s' & [= ->] & Hv)])%promptForScope_ends;
      done.
  - intros w. remember (stdin w) as lines eqn:Hl. revert w Hl.
    induction lines as [|l lines IH]; intros w Hl Hall.
    + rewrite promptForScope_empty by done. unfold asked. by rewrite <- Hl.
    + apply Forall_cons in Hall as [Hinv Hall].
      rewrite (promptForScope_step w l lines), Hinv by done.
      destruct (asked_stdin ScopeQuestion w l lines (eq_sym Hl)) as [_ Hw].
      rewrite (IH (emit [scope_hint l] (asked ScopeQuestion w)));
        [|by rewrite Hw|done].
      rewrite Hw. cbn. by rewrite <- !app_assoc.
Qed.

Lemma promptForScope_first_valid_witness :
  promptForScope (start disk [js "  "; js "My Org"; js " my-org "; js "y"])
  = ({| fs := disk; stdin := [js "y"];
        out := [Ask ScopeQuestion; EmptyScopeHint;
                Ask ScopeQuestion; InvalidScopeHint; Ask ScopeQuestion];
        writes := [] |}, Ret (js "my-org")).
Proof.
  destruct promptForScope_first_valid as [H _].
  rewrite (H (start disk [js "  "; js "My Org"; js " my-org "; js "y"])
             [js "  "; js "My Org"] (js " my-org ") [js "y"]).
  - reflexivity.
  - reflexivity.
  - repeat constructor.
  - reflexivity.
Defined.

Lemma is_no_not_yes (answer : jsstring) :
  is_no answer = true -> is_yes answer = false.
Proof.
  rewrite is_no_spec, bool_decide_eq_true, !elem_of_cons, elem_of_nil.
  intros [->|[->|[->|[]]]]; reflexivity.
Qed.

(** One round of the confirmation prompt, by what it recognises. *)
Lemma promptConfirmation_round (q : question) (w : world) (input : jsstring)
    (rest : list jsstring) :
  stdin w = input :: rest ->
  promptConfirmation q w =
    if recognised input then (asked q w, Ret (negb (is_no (normalize input))))
    else promptConfirmation q (emit [YesNoHint] (asked q w)).
Proof.
  intros Hin. rewrite (promptConfirmation_step q w input rest Hin). cbn zeta.
  unfold recognised, normalize.
  destruct (is_no _); [done|]. by destruct (is_yes _).
Qed.

Lemma promptConfirmation_empty (q : question) (w : world) :
  stdin w = [] -> promptConfirmation q w = (asked q w, Await).
Proof.
  intros Hin. unfold promptConfirmation. rewrite Hin.
  cbn [promptConfirmationLoop]. unfold bind, ask, asked, await.
  by rewrite Hin.
Qed.

(** What the confirmation prompt ends with: an answer, or waiting; the
    files are untouched, and the answer is yes only if a line of the
    input says so. *)
Lemma promptConfirmation_ends (q : question) (w w' : world) (o : outcome bool) :
  promptConfirmation q w = (w', o) ->
  fs w' = fs w /\ writes w' = writes w /\
  (o = Await \/ o = Ret false \/
   (o = Ret true /\
    exists input, input ∈ stdin w /\ is_yes (normalize input) = true)).
Proof.
  remember (stdin w) as lines eqn:Hl. revert w Hl.
  induction lines as [|input rest IH]; intros w Hl.
  - rewrite promptConfirmation_empty by done. intros [= <- <-].
    cbn. split_and!; try done. by left.
  - rewrite (promptConfirmation_round q w input rest) by done.
    destruct (asked_stdin q w input rest (eq_sym Hl)) as [_ Hw].
    unfold recognised. destruct (is_no (normalize input)) eqn:Hno.
    + intros [= <- <-]. cbn. split_and!; try done. right. by left.
    + destruct (is_yes (normalize input)) eqn:Hyes; cbn [orb negb].
      * intros [= <- <-]. cbn. split_and!; try done. right. right.
        split; [done|]. exists input. split; [apply list_elem_of_here|done].
      * intros H. apply IH in H; [|by rewrite Hw].
        rewrite Hw in H. cbn in H.
        destruct H as (? & ? & [?|[?|(? & x & Hx & ?)]]);
          (split; [done|]); (split; [done|]).
        -- by left.
        -- right. by left.
        -- right. right. split; [done|]. exists x.
           split; [by apply list_elem_of_further|done].
Qed.

(** X11. The confirmation prompt decides on the first line of input that
    is, trimmed and in lower case, one of the five answers; for every
    line before it, it asks and prints the hint.  It answers yes only
    when a line says yes, and when no line is recognised it goes on
    waiting. *)
Theorem promptConfirmation_first_recognised :
  (forall q w skipped input rest,
     stdin w = skipped ++ input :: rest ->
     Forall (fun l => recognised l = false) skipped ->
     recognised input = true ->
     promptConfirmation q w =
       ({| fs := fs w; stdin := rest;
           out := out w ++ flat_map (fun _ => [Ask q; YesNoHint]) skipped
                  ++ [Ask q];
           writes := writes w |}, Ret (is_yes (normalize input)))) /\
  (forall q w w',
     promptConfirmation q w = (w', Ret true) ->
     exists input, input ∈ stdin w /\ is_yes (normalize input) = true) /\
  (forall q w,
     Forall (fun l => recognised l = false) (stdin w) ->
     promptConfirmation q w =
       ({| fs := fs w; stdin := [];
           out := out w ++ flat_map (fun _ => [Ask q; YesNoHint]) (stdin w)
                  ++ [Ask q];
           writes := writes w |}, Await)).
Proof.
  split_and!.
  - intros q w skipped. revert w.
    induction skipped as [|l skipped IH]; intros w input rest Hin Hsk Hrec.
    + rewrite (promptConfirmation_round q w input rest Hin), Hrec.
      destruct (asked_stdin q w input rest Hin) as [_ ->].
      do 2 f_equal. unfold recognised in Hrec.
      destruct (is_no (normalize input)) eqn:Hno; [|by destruct (is_yes _)].
      by rewrite (is_no_not_yes _ Hno).
    + apply Forall_cons in Hsk as [Hl Hsk].
      rewrite (promptConfirmation_round q w l (skipped ++ input :: rest) Hin), Hl.
      destruct (asked_stdin q w l _ Hin) as [_ Hw].
      rewrite (IH _ input rest); [|by rewrite Hw|done..].
      rewrite Hw. cbn. by rewrite <- !app_assoc.
  - intros q w w' (_ & _ & [|[|[_ H]]])%promptConfirmation_ends; done.
  - intros q w. remember (stdin w) as lines eqn:Hl. revert w Hl.
    induction lines as [|l lines IH]; intros w Hl Hall.
    + rewrite promptConfirmation_empty by done. unfold asked. by rewrite <- Hl.
    + apply Forall_cons in Hall as [Hinv Hall].
      rewrite (promptConfirmation_round q w l lines), Hinv by done.
      destruct (asked_stdin q w l lines (eq_sym Hl)) as [_ Hw].
      rewrite (IH (emit [YesNoHint] (asked q w))); [|by rewrite Hw|done].
      rewrite Hw. cbn. by rewrite <- !app_assoc.
Qed.

Lemma promptConfirmation_first_recognised_witness :
  promptConfirmation ContinueQuestion
    (start disk [js "maybe"; js "ok"; js " Yes "; js "n"])
  = ({| fs := disk; stdin := [js "n"];
        out := [Ask ContinueQuestion; YesNoHint; Ask ContinueQuestion;
                YesNoHint; Ask ContinueQuestion];
        writes := [] |}, Ret true).
Proof.
  destruct promptConfirmation_first_recognised as [H _].
  rewrite (H ContinueQuestion
             (start disk [js "maybe"; js "ok"; js " Yes "; js "n"])
             [js "maybe"; js "ok"] (js " Yes ") [js "n"]).
  - reflexivity.
  - reflexivity.
  - repeat constructor.
  - reflexivity.
Defined.

(** ** How main ends *)

Lemma resolveScope_ends (cfg : config) (w w' : world) (o : outcome jsstring) :
  resolveScope cfg w = (w', o) ->
  fs w' = fs w /\ writes w' = writes w /\
  stdin w' `suffix_of` stdin w /\
  (o = Await \/
   exists s, o = Ret s /\
     (isValidScope s = true \/ (newScope cfg = Some s /\ w' = w))).
Proof.
  unfold resolveScope.
  destruct (newScope cfg) as [s|] eqn:E; [destruct (falsy s)|].
  - intros (? & ? & ? & [?|(s' & ? & ?)])%promptForScope_ends;
      split_and!; try done; [by left|right; eauto].
  - intros [= <- <-]. split_and!; try done. right. eauto.
  - intros (? & ? & ? & [?|(s' & ? & ?)])%promptForScope_ends;
      split_and!; try done; [by left|right; eauto].
Qed.

(** What [applyRenaming] ends with outside preview mode: it has done the
    first [k] of the planned writes, all of them when it returns. *)
Lemma applyLoop_ends (cfg : config) (findings : list finding) (s : jsstring)
    (n : nat) (w w' : world) (o : outcome nat) :
  dryRun cfg = false ->
  applyLoop cfg findings s n w = (w', o) ->
  exists k,
    writes w' = writes w ++ take k (planned findings s) /\
    write_all (fs w) (take k (planned findings s)) = inr (fs w') /\
    stdin w' = stdin w /\ out w' = out w /\
    ((o = Ret (n + length findings) /\ k = length findings) \/
     (exists err, o = Throw err /\ k < length findings)).
Proof.
  intros Hdry. revert n w. induction findings as [|f l IH]; intros n w.
  - cbn. intros [= <- <-]. exists 0. cbn.
    rewrite app_nil_r, Nat.add_0_r. split_and!; try done. by left.
  - cbn [applyLoop planned fmap list_fmap length].
    unfold bind, writeFileContent. rewrite Hdry.
    destruct (writeFileSync (fs w) _ _) as [err|files1] eqn:Ew.
    + intros [= <- <-]. exists 0. cbn. rewrite app_nil_r.
      split_and!; try done. right. exists err. split; [done|lia].
    + intros (k & Hwr & Hall & Hin & Hout & Ho)%IH. cbn in *.
      exists (S k). cbn [take write_all]. rewrite Ew.
      rewrite Hwr, <- app_assoc. split_and!; try done.
      destruct Ho as [[-> ->]|(err & -> & Hk)].
      * left. split; [f_equal; lia|done].
      * right. exists err. split; [done|lia].
Qed.

Lemma main_scope_waits (e : env) (cfg : config) (w w2 : world)
    (findings : list finding) :
  scanFiles e w = (w, Ret findings) -> findings <> [] ->
  dryRun cfg = false ->
  resolveScope cfg (emit [Banner] w) = (w2, Await) ->
  main e cfg w = (w2, Await).
Proof.
  intros [_ Hs]%(scanFiles_emit _ _ _ _ [Banner]) Hne Hdry Hres.
  unfold main.
  rewrite (bind_ret _ _ _ _ _ (log_emit _ _)).
  rewrite (bind_ret _ _ _ _ _ Hs).
  destruct findings as [|f findings]; [done|]. cbn [length Nat.eqb when].
  rewrite (bind_ret _ _ _ _ _ eq_refl), Hdry. cbn [when].
  rewrite (bind_ret _ _ _ _ _ eq_refl).
  fold (resolveScope cfg). unfold bind. by rewrite Hres.
Qed.

(** Every run of [main] ends in one of the ten ways. *)
Lemma main_ending (e : env) (cfg : config) (w w' : world) (o : outcome unit) :
  main e cfg w = (w', o) -> ending e cfg w w' o.
Proof.
  pose proof (scanFiles_found e w) as Hscan.
  destruct (found_in e (fs w) (getFilesToScan e)) as [err|findings].
  { rewrite (main_scan_throws _ _ _ _ Hscan). intros [= <- <-].
    by constructor. }
  destruct findings as [|f l].
  { rewrite (main_no_findings _ _ _ Hscan). intros [= <- <-].
    by constructor. }
  set (findings := f :: l) in *.
  assert (Hne : findings <> []) by done.
  destruct (dryRun cfg) eqn:Hdry.
  { rewrite (main_preview _ _ _ _ Hscan Hne Hdry). intros [= <- <-].
    by apply (end_preview e cfg w findings). }
  destruct (resolveScope cfg (emit [Banner] w)) as [w2 o2] eqn:Hres.
  destruct (resolveScope_ends _ _ _ _ Hres) as (_ & _ & _ & [->|(s & -> & _)]).
  { rewrite (main_scope_waits _ _ _ _ _ Hscan Hne Hdry Hres).
    intros [= <- <-]. by apply (end_scope_wait e cfg w findings). }
  rewrite (main_settled _ _ _ _ _ _ Hscan Hne Hdry Hres).
  destruct (isValidScope s) eqn:Hv; cbn [negb].
  2: { intros [= <- <-]. by apply (end_invalid e cfg w findings w2 s). }
  unfold jseq. case_bool_decide as Hs.
  { subst s. intros [= <- <-]. by apply (end_same e cfg w findings). }
  destruct (promptConfirmation ContinueQuestion (at_confirm findings s w2))
    as [w3 o3] eqn:Hc.
  destruct (promptConfirmation_ends _ _ _ _ Hc) as (_ & _ & [->|[->|[-> _]]]).
  - unfold bind. rewrite Hc. intros [= <- <-].
    by apply (end_confirm_wait e cfg w findings w2 s).
  - rewrite (bind_ret _ _ _ _ _ Hc). cbn [negb when].
    rewrite !bind_assoc, (bind_ret _ _ _ _ _ (log_emit _ _)).
    intros [= <- <-]. by apply (end_cancelled e cfg w findings w2 s).
  - rewrite (bind_ret _ _ _ _ _ Hc). cbn [negb when].
    rewrite (bind_ret _ _ _ _ _ eq_refl).
    destruct (applyRenaming cfg findings s w3) as [w4 o4] eqn:Ha.
    destruct (applyLoop_ends _ _ _ _ _ _ _ Hdry Ha)
      as (k & _ & _ & _ & _ & [[-> _]|(err & -> & _)]).
    + rewrite (bind_ret _ _ _ _ _ Ha).
      rewrite (bind_ret _ _ _ _ _ (log_emit _ _)).
      rewrite (bind_ret _ _ _ _ _ (log_emit _ _)), log_emit, !emit_emit.
      intros [= <- <-].
      by apply (end_applied e cfg w findings w2 s w3 w4).
    + rewrite (bind_throw _ _ _ _ _ Ha). intros [= <- <-].
      by apply (end_apply_error e cfg w findings w2 s w3 w4).
Qed.

Lemma promptForScope_waits (w w' : world) :
  promptForScope w = (w', Await) -> stdin w' = [].
Proof.
  remember (stdin w) as lines eqn:Hl. revert w Hl.
  induction lines as [|input rest IH]; intros w Hl.
  - rewrite promptForScope_empty by done. intros [= <-]. cbn. by rewrite <- Hl.
  - rewrite (promptForScope_step w input rest) by done.
    destruct (asked_stdin ScopeQuestion w input rest (eq_sym Hl)) as [_ Hw].
    destruct (isValidScope (trim input)); [done|].
    apply IH. by rewrite Hw.
Qed.

Lemma promptConfirmation_waits (q : question) (w w' : world) :
  promptConfirmation q w = (w', Await) -> stdin w' = [].
Proof.
  remember (stdin w) as lines eqn:Hl. revert w Hl.
  induction lines as [|input rest IH]; intros w Hl.
  - rewrite promptConfirmation_empty by done. intros [= <-]. cbn.
    by rewrite <- Hl.
  - rewrite (promptConfirmation_round q w input rest) by done.
    destruct (asked_stdin q w input rest (eq_sym Hl)) as [_ Hw].
    destruct (recognised input); [done|].
    apply IH. by rewrite Hw.
Qed.

Lemma resolveScope_waits (cfg : config) (w w' : world) :
  resolveScope cfg w = (w', Await) -> stdin w' = [].
Proof.
  unfold resolveScope.
  destruct (newScope cfg) as [s|]; [destruct (falsy s)|];
    try apply promptForScope_waits.
  done.
Qed.

(** The files and the writes at the end of [main]: as they were, or
    after a yes, with some of the planned writes done. *)
Lemma ending_writes (e : env) (cfg : config) (w w' : world) (o : outcome unit) :
  ending e cfg w w' o ->
  (fs w' = fs w /\ writes w' = writes w) \/
  (dryRun cfg = false /\
   (exists input, input ∈ stdin w /\ is_yes (normalize input) = true) /\
   exists findings s k,
     scanFiles e w = (w, Ret findings) /\
     isValidScope s = true /\ s <> js "ordinarysh" /\
     writes w' = writes w ++ take k (planned findings s) /\
     write_all (fs w) (take k (planned findings s)) = inr (fs w')).
Proof.
  assert (Hyes : forall findings s w2 w3 cfg0,
            resolveScope cfg0 (emit [Banner] w) = (w2, Ret s) ->
            promptConfirmation ContinueQuestion (at_confirm findings s w2)
              = (w3, Ret true) ->
            fs w3 = fs w /\ writes w3 = writes w /\
            exists input, input ∈ stdin w /\ is_yes (normalize input) = true).
  { intros findings s w2 w3 cfg0
      (Hfs2 & Hwr2 & [pre Hsuf] & _)%resolveScope_ends
      (Hfs3 & Hwr3 & [|[|[_ (input & Hin & Hy)]]])%promptConfirmation_ends;
      try done.
    cbn in *. split_and!; [congruence..|].
    exists input. split; [|done]. rewrite Hsuf.
    apply elem_of_app. by right. }
  assert (Hframe2 : forall cfg0 w2 o2,
            resolveScope cfg0 (emit [Banner] w) = (w2, o2) ->
            fs w2 = fs w /\ writes w2 = writes w).
  { intros cfg0 w2 o2 (? & ? & _)%resolveScope_ends. by cbn in *. }
  assert (Hframe3 : forall cfg0 w2 o2 findings s w3 o3,
            resolveScope cfg0 (emit [Banner] w) = (w2, o2) ->
            promptConfirmation ContinueQuestion (at_confirm findings s w2)
              = (w3, o3) ->
            fs w3 = fs w /\ writes w3 = writes w).
  { intros cfg0 w2 o2 findings s w3 o3 [? ?]%Hframe2
      (? & ? & _)%promptConfirmation_ends.
    cbn in *. split; congruence. }
  destruct 1 as [err| |findings|findings w2|findings w2 s|findings w2
                |findings w2 s w3|findings w2 s w3|findings w2 s w3 w4 n
                |findings w2 s w3 w4 err];
    try (left; cbn; by eauto).
  all: right;
    match goal with
    | Hdry : dryRun _ = false,
      Hres : resolveScope _ _ = _,
      Hc : promptConfirmation _ _ = _,
      Ha : applyRenaming _ _ _ _ = _ |- _ =>
        destruct (Hyes _ _ _ _ _ Hres Hc) as (Hfs & Hwr & Hin);
        destruct (applyLoop_ends _ _ _ _ _ _ _ Hdry Ha) as (k & Hw & Hall & _)
    end;
    (split; [done|]); (split; [done|]); exists findings, s, k;
    cbn; rewrite Hw, Hwr, <- Hfs; by split_and!.
Qed.

Lemma run_main (e : env) (args : list jsstring) (w : world) :
  fs (run e args w).1 = fs (main e (parseArgs args) w).1 /\
  writes (run e args w).1 = writes (main e (parseArgs args) w).1 /\
  stdin (run e args w).1 = stdin (main e (parseArgs args) w).1.
Proof.
  unfold run. by destruct (main e (parseArgs args) w) as [w' [[]|n|err|]].
Qed.

(** X12. A run changes the files only after an answer of yes: either the
    files and the list of writes are as they were, or the run was not in
    preview mode, a line of the input says yes, and the writes are the
    first of the planned ones, the rewritten contents of the findings of
    the scan under a valid scope other than [ordinarysh], in their
    order. *)
Theorem run_writes_only_after_yes (e : env) (args : list jsstring)
    (w : world) :
  (fs (run e args w).1 = fs w /\ writes (run e args w).1 = writes w) \/
  (dryRun (parseArgs args) = false /\
   (exists input, input ∈ stdin w /\ is_yes (normalize input) = true) /\
   exists findings s k,
     scanFiles e w = (w, Ret findings) /\
     isValidScope s = true /\ s <> js "ordinarysh" /\
     writes (run e args w).1 = writes w ++ take k (planned findings s) /\
     write_all (fs w) (take k (planned findings s))
       = inr (fs (run e args w).1)).
Proof.
  destruct (run_main e args w) as (-> & -> & _).
  destruct (main e (parseArgs args) w) as [w' o] eqn:E.
  apply main_ending in E. by apply (ending_writes e _ w w' o).
Qed.

Lemma readFileSync_is_Some (files : gmap jsstring node) (p data : jsstring) :
  readFileSync files p = inr data -> is_Some (files !! p).
Proof. unfold readFileSync. by destruct (files !! p). Qed.

Lemma writeFileSync_dom (files files' : gmap jsstring node) (p c : jsstring) :
  is_Some (files !! p) -> writeFileSync files p c = inr files' ->
  dom files' = dom files.
Proof.
  intros Hp%elem_of_dom. unfold writeFileSync.
  destruct (files !! p) as [[r [] data|]|]; try done;
    intros [= <-]; rewrite dom_insert_L;
    by apply subseteq_union_1_L, singleton_subseteq_l.
Qed.

Lemma write_all_dom (files files' : gmap jsstring node)
    (l : list (jsstring * jsstring)) :
  (forall p, p ∈ l.*1 -> is_Some (files !! p)) ->
  write_all files l = inr files' -> dom files' = dom files.
Proof.
  revert files. induction l as [|[p c] l IH]; intros files Hall.
  - by intros [= <-].
  - cbn [write_all].
    destruct (writeFileSync files p c) as [|files1] eqn:E; [done|].
    assert (Hd : dom files1 = dom files).
    { apply (writeFileSync_dom _ _ p c); [|done].
      apply Hall. cbn. apply list_elem_of_here. }
    intros Hw. rewrite (IH files1); [done| |done].
    intros q Hq. apply elem_of_dom. rewrite Hd. apply elem_of_dom, Hall.
    cbn. by apply list_elem_of_further.
Qed.

Lemma planned_take_paths (e : env) (w : world) (findings : list finding)
    (s p : jsstring) (k : nat) :
  scanFiles e w = (w, Ret findings) ->
  p ∈ (take k (planned findings s)).*1 ->
  is_Some (fs w !! p) /\
  exists f, f ∈ getFilesToScan e /\ p = path_join (rootDir e) f.
Proof.
  rewrite scanFiles_found.
  destruct (found_in e (fs w) (getFilesToScan e)) as [|l] eqn:E; [done|].
  intros [= <-] ([q c] & -> & Hin%subseteq_take)%list_elem_of_fmap.
  assert (Hp' : q ∈ (planned l s).*1)
    by (apply list_elem_of_fmap; by exists (q, c)).
  cbn [fst]. rewrite planned_paths in Hp'.
  apply list_elem_of_fmap in Hp' as (fd & -> & Hfd).
  apply found_in_each in E. rewrite Forall_forall in E.
  destruct (E fd Hfd) as (Hfile & Hpath & Hread & _). split.
  - by apply (readFileSync_is_Some _ _ (content fd)).
  - eauto.
Qed.

(** X13. A run neither creates nor deletes a file, and it leaves every
    path alone that is not the path of a discovered file. *)
Theorem run_keeps_file_set (e : env) (args : list jsstring) (w : world) :
  dom (fs (run e args w).1) = dom (fs w) /\
  forall p,
    (forall f, f ∈ getFilesToScan e -> p <> path_join (rootDir e) f) ->
    fs (run e args w).1 !! p = fs w !! p.
Proof.
  destruct (run_main e args w) as (-> & _ & _).
  destruct (main e (parseArgs args) w) as [w' o] eqn:E.
  apply main_ending, ending_writes in E. cbn [fst].
  destruct E as [[-> _]|(_ & _ & findings & s & k & Hscan & _ & _ & _ & Hall)];
    [done|].
  split.
  - apply (write_all_dom _ _ _ (fun p Hp =>
             proj1 (planned_take_paths e w findings s p k Hscan Hp)) Hall).
  - intros p Hp. apply (write_all_other _ _ _ _ Hall).
    intros (_ & f & Hf & ->)%(planned_take_paths e w findings s _ k Hscan).
    by apply (Hp f).
Qed.

Lemma run_keeps_file_set_witness :
  fs (run repo [js "--scope"; js "acme"] (start disk [js "y"])).1
    !! js "/repo/README.md"
  = disk !! js "/repo/README.md".
Proof.
  destruct (run_keeps_file_set repo [js "--scope"; js "acme"]
              (start disk [js "y"])) as [_ H].
  apply H. intros f Hf.
  assert (Hfiles : f ∈ [manifest; config_file; page]) by exact Hf.
  rewrite !elem_of_cons, elem_of_nil in Hfiles.
  destruct Hfiles as [->|[->|[->|[]]]]; vm_compute; discriminate.
Defined.

(** X14. A run ends with status 0 or 1, or goes on waiting for input.
    It waits only when the input is used up.  It ends with status 1 only
    after reporting an error that was thrown, or after reporting an
    invalid scope; the invalid scope then came from the command line, and
    no line of input was read. *)
Theorem run_status (e : env) (args : list jsstring) (w : world) :
  ((run e args w).2 = Exited 0 \/ (run e args w).2 = Exited 1 \/
   (run e args w).2 = Waiting) /\
  ((run e args w).2 = Exited 1 ->
   (exists err, last (out (run e args w).1) = Some (ErrorReport err)) \/
   (last (out (run e args w).1) = Some InvalidScopeError /\
    stdin (run e args w).1 = stdin w /\
    exists s, newScope (parseArgs args) = Some s /\ isValidScope s = false)) /\
  ((run e args w).2 = Waiting -> stdin (run e args w).1 = []).
Proof.
  unfold run. destruct (main e (parseArgs args) w) as [w' o] eqn:E.
  apply main_ending in E.
  destruct E as [err| |findings|findings w2|findings w2 s Hscan Hne Hdry Hres Hv
                |findings w2|findings w2 s w3|findings w2 s w3
                |findings w2 s w3 w4 n|findings w2 s w3 w4 err];
    cbn [fst snd out stdin emit]; (split; [tauto|]); split; try done.
  - intros _. left. exists err. by rewrite last_snoc.
  - intros _. by apply (resolveScope_waits (parseArgs args) (emit [Banner] w)).
  - intros _. right. rewrite last_snoc. split; [done|].
    destruct (resolveScope_ends _ _ _ _ Hres)
      as (_ & _ & _ & [|(s' & [= <-] & [Hvalid|[Hcli ->]])]); [done|congruence|].
    split; [done|]. by exists s.
  - intros _. by apply (promptConfirmation_waits ContinueQuestion
                          (at_confirm findings s w2)).
  - intros _. left. exists err. by rewrite last_snoc.
Qed.

Lemma run_status_witness :
  (exists err,
     last (out (run repo [js "--scope"; js "My_Org"] (start disk [js "y"])).1)
     = Some (ErrorReport err)) \/
  (last (out (run repo [js "--scope"; js "My_Org"] (start disk [js "y"])).1)
   = Some InvalidScopeError /\
   stdin (run repo [js "--scope"; js "My_Org"] (start disk [js "y"])).1
   = [js "y"] /\
   exists s, newScope (parseArgs [js "--scope"; js "My_Org"]) = Some s /\
             isValidScope s = false).
Proof.
  destruct (run_status repo [js "--scope"; js "My_Org"] (start disk [js "y"]))
    as (_ & H & _).
  apply H. vm_compute. reflexivity.
Defined.

(** X15. A scope from the command line is checked before anything is
    asked or written: when it is not a valid name the run prints the
    error and exits with status 1, and when it is [ordinarysh] the run
    says so and exits with status 0; in both cases the input and the
    files are untouched. *)
Theorem scope_checked_before_prompt (e : env) (cfg : config) (w : world)
    (findings : list finding) (s : jsstring) :
  scanFiles e w = (w, Ret findings) -> findings <> [] ->
  dryRun cfg = false -> newScope cfg = Some s -> s <> [] ->
  (isValidScope s = false ->
   main e cfg w = (emit [Banner; InvalidScopeError] w, Exit 1)) /\
  (s = js "ordinarysh" ->
   main e cfg w = (emit [Banner; AlreadyNamed] w, Exit 0)).
Proof.
  intros Hscan Hne Hdry Hcli Hs.
  assert (Hres : resolveScope cfg (emit [Banner] w) = (emit [Banner] w, Ret s)).
  { unfold resolveScope. rewrite Hcli. by destruct s. }
  rewrite (main_settled e cfg w _ findings s Hscan Hne Hdry Hres).
  split.
  - intros ->. cbn [negb]. by rewrite emit_emit.
  - intros ->.
    assert (isValidScope (js "ordinarysh") = true) as ->
      by (vm_compute; reflexivity).
    cbn [negb]. unfold jseq. rewrite bool_decide_eq_true_2 by done.
    by rewrite emit_emit.
Qed.

Lemma scope_checked_before_prompt_witness :
  main repo (parseArgs [js "--scope"; js "-acme"]) (start disk [js "y"])
  = (emit [Banner; InvalidScopeError] (start disk [js "y"]), Exit 1).
Proof.
  assert (Hscan : scanFiles repo (start disk [js "y"])
                  = (start disk [js "y"], Ret [manifest_finding; page_finding]))
    by (vm_compute; reflexivity).
  assert (Hv : isValidScope (js "-acme") = false) by (vm_compute; reflexivity).
  exact (proj1 (scope_checked_before_prompt repo
                  (parseArgs [js "--scope"; js "-acme"]) (start disk [js "y"])
                  [manifest_finding; page_finding] (js "-acme") Hscan
                  ltac:(discriminate) eq_refl eq_refl ltac:(discriminate)) Hv).
Defined.

(** X16. When the scope is settled, the answer is yes and every planned
    write succeeds, the run writes the rewritten content of every
    finding, prints that it renamed as many files as there are findings,
    and exits with status 0. *)
Theorem run_applies_all (e : env) (args : list jsstring) (w w2 w3 : world)
    (findings : list finding) (s : jsstring) (files' : gmap jsstring node) :
  scanFiles e w = (w, Ret findings) -> findings <> [] ->
  dryRun (parseArgs args) = false ->
  resolveScope (parseArgs args) (emit [Banner] w) = (w2, Ret s) ->
  isValidScope s = true -> s <> js "ordinarysh" ->
  promptConfirmation ContinueQuestion (at_confirm findings s w2)
    = (w3, Ret true) ->
  write_all (fs w3) (planned findings s) = inr files' ->
  run e args w =
    ({| fs := files'; stdin := stdin w3;
        out := out w3 ++ [Renamed (length findings); AllChanged s; NextSteps];
        writes := writes w3 ++ planned findings s |}, Exited 0).
Proof.
  intros Hscan Hne Hdry Hres Hv Hs Hc Hw. unfold run.
  rewrite (main_applies e _ w w2 w3 findings s) by done.
  unfold applyRenaming.
  rewrite (bind_ret _ _ _ _ _ (applyLoop_ok _ _ _ 0 _ files' Hdry Hw)).
  rewrite (bind_ret _ _ _ _ _ (log_emit _ _)).
  rewrite (bind_ret _ _ _ _ _ (log_emit _ _)), log_emit, !emit_emit.
  reflexivity.
Qed.

Lemma run_applies_all_witness :
  (run repo [js "--scope"; js "acme"] (start disk [js "yes"])).2 = Exited 0 /\
  last (out (run repo [js "--scope"; js "acme"] (start disk [js "yes"])).1)
  = Some NextSteps.
Proof.
  set (w2 := emit [Banner] (start disk [js "yes"])).
  set (w3 := asked ContinueQuestion
               (at_confirm [manifest_finding; page_finding] (js "acme") w2)).
  rewrite (run_applies_all repo [js "--scope"; js "acme"]
             (start disk [js "yes"]) w2 w3
             [manifest_finding; page_finding] (js "acme")
             (<[at_root page := File true true
                  (replaceReferences page_text (js "acme"))]>
                (<[at_root manifest := File true true
                     (replaceReferences manifest_text (js "acme"))]> disk)));
    try (vm_compute; reflexivity); try discriminate.
  split; [reflexivity|]. cbn [fst out]. by rewrite last_app.
Defined.

(** ** The command line *)

Lemma indexOf_Some (x : jsstring) (l : list jsstring) (i : nat) :
  indexOf x l = Some i <->
  l !! i = Some x /\ forall j, j < i -> l !! j <> Some x.
Proof.
  revert i. induction l as [|y l IH]; intros i; cbn [indexOf].
  - split; [done|]. by intros [? _].
  - unfold jseq. case_bool_decide as Hy.
    + subst y. split.
      * intros [= <-]. split; [done|]. lia.
      * intros [_ Hfirst]. destruct i as [|i]; [done|].
        by destruct (Hfirst 0 ltac:(lia)).
    + destruct i as [|i].
      * split; [by destruct (indexOf x l)|]. intros [[= ->] _]. done.
      * rewrite fmap_Some. split.
        -- intros (i' & Hi & [= ->]). apply IH in Hi as [Hi Hfirst].
           split; [done|]. intros [|j] Hj; cbn; [congruence|].
           apply Hfirst. lia.
        -- intros [Hi Hfirst]. exists i. split; [|done]. apply IH.
           split; [done|]. intros j Hj. apply (Hfirst (S j)). lia.
Qed.

(** X17. What the command line is read as: preview mode exactly when
    [--dry-run] or [--check] is among the arguments; and a scope exactly
    when the argument after the first [--scope] is there and not empty,
    and then it is that argument. *)
Theorem parseArgs_reads (args : list jsstring) :
  (dryRun (parseArgs args) = true <->
   js "--dry-run" ∈ args \/ js "--check" ∈ args) /\
  (forall s,
     newScope (parseArgs args) = Some s <->
     s <> [] /\
     exists i, args !! i = Some (js "--scope") /\
               (forall j, j < i -> args !! j <> Some (js "--scope")) /\
               args !! (i + 1) = Some s).
Proof.
  split.
  - cbn [parseArgs dryRun]. unfold includes.
    by rewrite orb_true_iff, !bool_decide_eq_true.
  - intros s. cbn [parseArgs newScope]. split.
    + destruct (indexOf (js "--scope") args) as [i|] eqn:Ei; [|done].
      apply indexOf_Some in Ei as [Hi Hfirst].
      destruct (args !! (i + 1)) as [a|] eqn:Ea; [|done].
      destruct a as [|c a]; [done|]. intros [= <-].
      split; [done|]. exists i. by split_and!.
    + intros (Hs & i & Hi & Hfirst & Ha).
      assert (Ei : indexOf (js "--scope") args = Some i)
        by (by apply indexOf_Some).
      rewrite Ei, Ha. by destruct s.
Qed.

Lemma parseArgs_reads_witness :
  newScope (parseArgs [js "--check"; js "--scope"; js "acme"; js "--scope";
                       js "other"])
  = Some (js "acme").
Proof.
  destruct (parseArgs_reads [js "--check"; js "--scope"; js "acme";
                             js "--scope"; js "other"]) as [_ H].
  apply H. split; [discriminate|]. exists 1.
  split; [reflexivity|]. split; [|reflexivity].
  intros [|j] Hj; [discriminate|]. inversion Hj as [|? Hle]. inversion Hle.
Defined.
